(** * LiveTranslator: the streaming pipeline coordinator, its translation
    cache and its translator front end, embedded from
    [src/live_translator.py], [src/translator.py],
    [src/speech_recognition.py] and [src/youtube_extractor.py].

    Conventions of the embedding.
    - A Python [str] is the list of its code points ([pystr]), so [len] is
      [length] and [str.strip] sees the Unicode white space Python strips.
    - A Python [float] is an exact rational ([Q]); [/] raises
      [ZeroDivisionError] on a zero divisor, as Python's does.
    - A Python [int] is a [Z].
    - Methods that mutate [self] are state transformers; a method that can
      raise returns a [res] next to the state it leaves behind, because a
      Python exception does not undo earlier mutations.
    - The collaborators the program does not implement (the clock, the
      Whisper and translation back ends, yt-dlp) are oracles collected in
      [World]; each oracle is indexed by the number of earlier calls to it,
      which the state counts, so an oracle may answer the same request
      differently at different times.
    - The embedding is sequential. A method that starts a thread records it
      and returns; the loop of the worker thread is the function
      [_audio_processing_worker], run for a number of turns. Logging is left
      out: no method reads the log. *)

From Stdlib Require Import ZArith QArith Qminmax Lia Lqa.
From stdpp Require Import base option list sorting gmap strings pretty.

Local Open Scope Z_scope.
#[local] Set Warnings "-clear-no-such-hyp".

(** ** Python values *)

Abbreviation pystr := (list N).

(** An ASCII literal as a Python string. *)
Definition u (s : string) : pystr :=
  (λ a, N.of_nat (Ascii.nat_of_ascii a)) <$> String.list_ascii_of_string s.

(** [str(z)] for an [int]. *)
Definition str_of_int (z : Z) : pystr := u (pretty z).

Inductive exn : Type :=
  | IndexError            (* list.pop on an empty list *)
  | KeyError              (* del d[k] on a missing key *)
  | ValueError            (* list.remove of a missing element *)
  | ZeroDivisionError
  | ExternalError (code : N). (* anything a collaborator raises *)

Inductive res (A : Type) : Type :=
  | Ret (a : A)
  | Raise (e : exn).
Arguments Ret {A} a.
Arguments Raise {A} e.

(** The code points [c] with [c.isspace()], which are the ones
    [str.strip()] removes. *)
Definition isspace (c : N) : bool :=
  ((9 <=? c) && (c <=? 13) || (28 <=? c) && (c <=? 32)
   || (c =? 133) || (c =? 160) || (c =? 5760)
   || (8192 <=? c) && (c <=? 8202)
   || (c =? 8232) || (c =? 8233) || (c =? 8239) || (c =? 8287)
   || (c =? 12288))%N.

Fixpoint lstrip (s : pystr) : pystr :=
  match s with
  | c :: s' => if isspace c then lstrip s' else s
  | [] => []
  end.

Definition strip (s : pystr) : pystr := rev (lstrip (rev (lstrip s))).

(** Truth value of a [str]: non-empty. *)
Definition truthy (s : pystr) : bool :=
  match s with [] => false | _ :: _ => true end.

(** Truth value of an [Optional[str]]. *)
Definition truthy_opt (o : option pystr) : bool :=
  match o with Some s => truthy s | None => false end.

(** [x or ""] for an [Optional[str]]. *)
Definition or_empty (o : option pystr) : pystr :=
  match o with Some (c :: s) => c :: s | _ => [] end.

(** True division [a / b] of two floats. *)
Definition py_truediv (a b : Q) : res Q :=
  if Qeq_bool b 0 then Raise ZeroDivisionError else Ret (a / b)%Q.

Definition Q_of_nat (n : nat) : Q := inject_Z (Z.of_nat n).

(** ** [translator.py] *)

Inductive TranslationEngine : Type := OPENAI | GOOGLE.

(** ** The outside world *)

Record stream_info : Type := mk_stream_info {
  si_title : pystr;
  si_is_live : bool;
}.

Record World : Type := mk_World {
  (** [time.time()], by the number of earlier readings. *)
  time_time : nat → Q;
  (** The Whisper model, or the Whisper API when the flag is set: the raw
      transcript of an audio segment in a language, or an exception. *)
  whisper : bool → nat → list Byte.byte → pystr → res pystr;
  (** The chat completion (OPENAI) or the Google translation (GOOGLE) of a
      text from a source to a target language with an optional context: the
      reply's text, or an exception (a reply without text counts as one: both
      make the caller return [None]). *)
  translate_backend :
    TranslationEngine → nat → pystr → pystr → pystr → option pystr → res pystr;
  (** [yt_dlp.YoutubeDL.extract_info(url, download=False)]. *)
  extract_info : nat → pystr → res stream_info;
  (** The built-in [hash] on strings, fixed for the life of the process. *)
  str_hash : pystr → Z;
}.

(** *** [class Translator] *)

Record Translator : Type := mk_Translator {
  engine : TranslationEngine;
  last_request_time : Q;
  min_request_interval : Q;
}.

(** [Translator.__init__]. *)
Definition Translator_init (e : TranslationEngine) : Translator :=
  {| engine := e; last_request_time := 0; min_request_interval := 1 # 10 |}.

(** [Translator.get_translation_confidence]. *)
Definition get_translation_confidence (original translated : pystr) : Q :=
  if negb (truthy (strip original)) || negb (truthy (strip translated)) then 0%Q
  else
    match py_truediv (Q_of_nat (length translated `min` length original))
                     (Q_of_nat (length translated `max` length original)) with
    | Raise _ => 0%Q                      (* except Exception: return 0.0 *)
    | Ret length_ratio =>
        let base_score := if truthy (strip translated) then 7 # 10 else 0%Q in
        let confidence := (base_score * length_ratio)%Q in
        Qmin confidence 1
    end.

(** *** [class TranslationCache] *)

Record TranslationCache : Type := mk_TranslationCache {
  cache : gmap pystr pystr;
  max_size : Z;
  access_order : list pystr;
}.

(** [TranslationCache.__init__]. *)
Definition TranslationCache_init (max_size : Z) : TranslationCache :=
  {| cache := ∅; max_size := max_size; access_order := [] |}.

(** [list.remove(x)]: drops the first occurrence, [None] for the
    [ValueError] of a missing element. *)
Fixpoint list_remove (x : pystr) (l : list pystr) : option (list pystr) :=
  match l with
  | [] => None
  | y :: l' => if decide (x = y) then Some l' else (y ::.) <$> list_remove x l'
  end.

Section Cache.
(** The built-in [hash] on strings of the running process. *)
Variable hash : pystr → Z.

(** [TranslationCache._make_key]:
    [f"{source_lang}->{target_lang}:{hash(text)}"]. *)
Definition _make_key (text source_lang target_lang : pystr) : pystr :=
  source_lang ++ u "->" ++ target_lang ++ u ":" ++ str_of_int (hash text).

(** [TranslationCache.get]. *)
Definition cache_get (text source_lang target_lang : pystr)
    (c : TranslationCache) : res (option pystr) * TranslationCache :=
  let key := _make_key text source_lang target_lang in
  match cache c !! key with
  | Some v =>
      match list_remove key (access_order c) with
      | None => (Raise ValueError, c)
      | Some l =>
          (Ret (Some v),
           {| cache := cache c; max_size := max_size c;
              access_order := l ++ [key] |})
      end
  | None => (Ret None, c)
  end.

(** The eviction at the head of [TranslationCache.set]:
    [oldest_key = self.access_order.pop(0); del self.cache[oldest_key]]. *)
Definition evict_oldest (c : TranslationCache) : res unit * TranslationCache :=
  match access_order c with
  | [] => (Raise IndexError, c)
  | oldest_key :: l =>
      let c1 := {| cache := cache c; max_size := max_size c;
                   access_order := l |} in
      match cache c !! oldest_key with
      | None => (Raise KeyError, c1)
      | Some _ =>
          (Ret (), {| cache := delete oldest_key (cache c);
                      max_size := max_size c; access_order := l |})
      end
  end.

(** The tail of [TranslationCache.set]: store, then append the key to the
    access order unless it is there. *)
Definition store (key translation : pystr) (c : TranslationCache)
    : TranslationCache :=
  {| cache := <[key := translation]> (cache c);
     max_size := max_size c;
     access_order :=
       if decide (key ∈ access_order c) then access_order c
       else access_order c ++ [key] |}.

(** [TranslationCache.set]. *)
Definition cache_set (text source_lang target_lang translation : pystr)
    (c : TranslationCache) : res unit * TranslationCache :=
  let key := _make_key text source_lang target_lang in
  if (max_size c <=? Z.of_nat (size (cache c)))
     && negb (bool_decide (is_Some (cache c !! key)))
  then
    match evict_oldest c with
    | (Raise e, c1) => (Raise e, c1)
    | (Ret _, c1) => (Ret (), store key translation c1)
    end
  else (Ret (), store key translation c).

(** [TranslationCache.clear]. *)
Definition cache_clear (c : TranslationCache) : TranslationCache :=
  {| cache := ∅; max_size := max_size c; access_order := [] |}.

End Cache.

(** ** Calls made to the outside world so far *)

Record Calls : Type := mk_Calls {
  n_time : nat;
  n_whisper : nat;
  n_translate : nat;
  n_extract : nat;
}.

Definition no_calls : Calls :=
  {| n_time := 0; n_whisper := 0; n_translate := 0; n_extract := 0 |}.

Definition tick_time (c : Calls) : Calls :=
  {| n_time := S (n_time c); n_whisper := n_whisper c;
     n_translate := n_translate c; n_extract := n_extract c |}.
Definition tick_whisper (c : Calls) : Calls :=
  {| n_time := n_time c; n_whisper := S (n_whisper c);
     n_translate := n_translate c; n_extract := n_extract c |}.
Definition tick_translate (c : Calls) : Calls :=
  {| n_time := n_time c; n_whisper := n_whisper c;
     n_translate := S (n_translate c); n_extract := n_extract c |}.
Definition tick_extract (c : Calls) : Calls :=
  {| n_time := n_time c; n_whisper := n_whisper c;
     n_translate := n_translate c; n_extract := S (n_extract c) |}.

(** ** [translator.py], the methods that talk to the back end *)

Section TranslatorMethods.
Variable w : World.

(** [Translator._rate_limit]: two readings of the clock, a sleep in
    between when the last request is too recent. *)
Definition _rate_limit (t : Translator) (c : Calls) : Translator * Calls :=
  let c1 := tick_time c in
  ({| engine := engine t;
      last_request_time := time_time w (n_time c1);
      min_request_interval := min_request_interval t |},
   tick_time c1).

(** [Translator._translate_with_openai] and
    [Translator._translate_with_google]: the reply, stripped for OPENAI, or
    [None] when the back end raises. *)
Definition _translate_with (e : TranslationEngine) (n : nat)
    (text source_lang target_lang : pystr) (context : option pystr)
    : option pystr :=
  match translate_backend w e n text source_lang target_lang context with
  | Ret reply => Some (match e with OPENAI => strip reply | GOOGLE => reply end)
  | Raise _ => None
  end.

(** [Translator.translate_text]. *)
Definition translate_text (text source_lang target_lang : pystr)
    (context : option pystr) (t : Translator) (c : Calls)
    : option pystr * Translator * Calls :=
  if negb (truthy (strip text)) then (Some [], t, c)
  else
    let '(t1, c1) := _rate_limit t c in
    (_translate_with (engine t1) (n_translate c1)
       text source_lang target_lang context,
     t1, tick_translate c1).

End TranslatorMethods.

(** ** [speech_recognition.py] *)

Record SpeechRecognizer : Type := mk_SpeechRecognizer { use_api : bool }.

(** [SpeechRecognizer.transcribe_audio_data]: the stripped transcript, or
    [None] when the model or the API raises. *)
Definition transcribe_audio_data (w : World) (sr : SpeechRecognizer)
    (audio_data : list Byte.byte) (language : pystr) (c : Calls)
    : option pystr * Calls :=
  (match whisper w (use_api sr) (n_whisper c) audio_data language with
   | Ret text => Some (strip text)
   | Raise _ => None
   end, tick_whisper c).

(** ** [youtube_extractor.py] *)

Record YouTubeLiveAudioExtractor : Type := mk_Extractor { is_streaming : bool }.

(** [YouTubeLiveAudioExtractor.is_live_stream]. *)
Definition is_live_stream (w : World) (url : pystr) (c : Calls) : bool * Calls :=
  (match extract_info w (n_extract c) url with
   | Ret info => si_is_live info
   | Raise _ => false
   end, tick_extract c).

(** [YouTubeLiveAudioExtractor.get_stream_info]. *)
Definition get_stream_info (w : World) (url : pystr) (c : Calls)
    : option stream_info * Calls :=
  (match extract_info w (n_extract c) url with
   | Ret info => Some info
   | Raise _ => None
   end, tick_extract c).

(** ** [live_translator.py] *)

Inductive ProcessingState : Type :=
  STOPPED | STARTING | RUNNING | STOPPING | ERROR.

Global Instance ProcessingState_eq_dec : EqDecision ProcessingState.
Proof. solve_decision. Defined.

Record TranscriptionResult : Type := mk_TranscriptionResult {
  timestamp : Q;
  original_text : pystr;
  translated_text : option pystr;
  confidence : Q;
  language : pystr;
}.

(** [self.stats]. *)
Record Stats : Type := mk_Stats {
  segments_processed : Z;
  total_audio_time : Q;
  total_processing_time : Q;
  errors : Z;
  cache_hits : Z;
  cache_misses : Z;
}.

Definition fresh_stats : Stats :=
  {| segments_processed := 0; total_audio_time := 0; total_processing_time := 0;
     errors := 0; cache_hits := 0; cache_misses := 0 |}.

(** The messages handed to [_handle_error], by the place that builds them;
    the exception is the one formatted into the message. *)
Inductive error_message : Type :=
  | AudioProcessingError (e : exn)    (* f"音声処理エラー: {e}" *)
  | NotALiveStream                    (* "指定されたURLはライブ配信ではありません" *)
  | StreamInfoUnavailable             (* "ストリーム情報の取得に失敗しました" *)
  | StartError (e : exn)              (* f"翻訳開始エラー: {e}" *)
  | StopError (e : exn).              (* f"翻訳停止エラー: {e}" *)

(** What the registered observers have been called with, oldest first. *)
Inductive event : Type :=
  | EvTranscription (r : TranscriptionResult)
  | EvError (m : error_message)
  | EvState (s : ProcessingState).

(** An observer returns or raises; the coordinator swallows what it raises,
    and the embedding takes observers not to call back into the
    coordinator. *)
Definition observer (A : Type) : Type := option (A → res unit).

Record LiveTranslator : Type := mk_LiveTranslator {
  audio_extractor : YouTubeLiveAudioExtractor;
  speech_recognizer : SpeechRecognizer;
  translator : Translator;
  translation_cache : TranslationCache;
  segment_duration : Z;
  source_language : pystr;
  target_language : pystr;
  state : ProcessingState;
  current_url : option pystr;
  (** [self.audio_queue], front first; [None] is the end signal. *)
  audio_queue : list (option (list Byte.byte));
  (** [len(self.workers)]. *)
  workers : nat;
  transcription_callback : observer TranscriptionResult;
  error_callback : observer error_message;
  state_callback : observer ProcessingState;
  stats : Stats;
  (** Bookkeeping of the embedding, not fields of the object. *)
  calls : Calls;
  events : list event;
}.

(** [LiveTranslator.__init__]. *)
Definition LiveTranslator_init (use_whisper_api : bool)
    (translation_engine : TranslationEngine) (segment_duration cache_size : Z)
    : LiveTranslator :=
  {| audio_extractor := {| is_streaming := false |};
     speech_recognizer := {| use_api := use_whisper_api |};
     translator := Translator_init translation_engine;
     translation_cache := TranslationCache_init cache_size;
     segment_duration := segment_duration;
     source_language := u "en";
     target_language := u "ja";
     state := STOPPED;
     current_url := None;
     audio_queue := [];
     workers := 0;
     transcription_callback := None;
     error_callback := None;
     state_callback := None;
     stats := fresh_stats;
     calls := no_calls;
     events := [] |}.

(** Field updates. *)
Definition with_audio_extractor (x : YouTubeLiveAudioExtractor)
    (lt : LiveTranslator) : LiveTranslator :=
  mk_LiveTranslator x (speech_recognizer lt) (translator lt)
    (translation_cache lt) (segment_duration lt) (source_language lt)
    (target_language lt) (state lt) (current_url lt) (audio_queue lt)
    (workers lt) (transcription_callback lt) (error_callback lt)
    (state_callback lt) (stats lt) (calls lt) (events lt).
Definition with_translator (x : Translator) (lt : LiveTranslator)
    : LiveTranslator :=
  mk_LiveTranslator (audio_extractor lt) (speech_recognizer lt) x
    (translation_cache lt) (segment_duration lt) (source_language lt)
    (target_language lt) (state lt) (current_url lt) (audio_queue lt)
    (workers lt) (transcription_callback lt) (error_callback lt)
    (state_callback lt) (stats lt) (calls lt) (events lt).
Definition with_translation_cache (x : TranslationCache) (lt : LiveTranslator)
    : LiveTranslator :=
  mk_LiveTranslator (audio_extractor lt) (speech_recognizer lt) (translator lt)
    x (segment_duration lt) (source_language lt)
    (target_language lt) (state lt) (current_url lt) (audio_queue lt)
    (workers lt) (transcription_callback lt) (error_callback lt)
    (state_callback lt) (stats lt) (calls lt) (events lt).
Definition with_state (x : ProcessingState) (lt : LiveTranslator)
    : LiveTranslator :=
  mk_LiveTranslator (audio_extractor lt) (speech_recognizer lt) (translator lt)
    (translation_cache lt) (segment_duration lt) (source_language lt)
    (target_language lt) x (current_url lt) (audio_queue lt)
    (workers lt) (transcription_callback lt) (error_callback lt)
    (state_callback lt) (stats lt) (calls lt) (events lt).
Definition with_current_url (x : option pystr) (lt : LiveTranslator)
    : LiveTranslator :=
  mk_LiveTranslator (audio_extractor lt) (speech_recognizer lt) (translator lt)
    (translation_cache lt) (segment_duration lt) (source_language lt)
    (target_language lt) (state lt) x (audio_queue lt)
    (workers lt) (transcription_callback lt) (error_callback lt)
    (state_callback lt) (stats lt) (calls lt) (events lt).
Definition with_audio_queue (x : list (option (list Byte.byte)))
    (lt : LiveTranslator) : LiveTranslator :=
  mk_LiveTranslator (audio_extractor lt) (speech_recognizer lt) (translator lt)
    (translation_cache lt) (segment_duration lt) (source_language lt)
    (target_language lt) (state lt) (current_url lt) x
    (workers lt) (transcription_callback lt) (error_callback lt)
    (state_callback lt) (stats lt) (calls lt) (events lt).
Definition with_workers (x : nat) (lt : LiveTranslator) : LiveTranslator :=
  mk_LiveTranslator (audio_extractor lt) (speech_recognizer lt) (translator lt)
    (translation_cache lt) (segment_duration lt) (source_language lt)
    (target_language lt) (state lt) (current_url lt) (audio_queue lt)
    x (transcription_callback lt) (error_callback lt)
    (state_callback lt) (stats lt) (calls lt) (events lt).
Definition with_stats (x : Stats) (lt : LiveTranslator) : LiveTranslator :=
  mk_LiveTranslator (audio_extractor lt) (speech_recognizer lt) (translator lt)
    (translation_cache lt) (segment_duration lt) (source_language lt)
    (target_language lt) (state lt) (current_url lt) (audio_queue lt)
    (workers lt) (transcription_callback lt) (error_callback lt)
    (state_callback lt) x (calls lt) (events lt).
Definition with_calls (x : Calls) (lt : LiveTranslator) : LiveTranslator :=
  mk_LiveTranslator (audio_extractor lt) (speech_recognizer lt) (translator lt)
    (translation_cache lt) (segment_duration lt) (source_language lt)
    (target_language lt) (state lt) (current_url lt) (audio_queue lt)
    (workers lt) (transcription_callback lt) (error_callback lt)
    (state_callback lt) (stats lt) x (events lt).
Definition with_events (x : list event) (lt : LiveTranslator) : LiveTranslator :=
  mk_LiveTranslator (audio_extractor lt) (speech_recognizer lt) (translator lt)
    (translation_cache lt) (segment_duration lt) (source_language lt)
    (target_language lt) (state lt) (current_url lt) (audio_queue lt)
    (workers lt) (transcription_callback lt) (error_callback lt)
    (state_callback lt) (stats lt) (calls lt) x.

(** [set_transcription_callback], [set_error_callback],
    [set_state_callback]. *)
Definition set_transcription_callback (cb : TranscriptionResult → res unit)
    (lt : LiveTranslator) : LiveTranslator :=
  mk_LiveTranslator (audio_extractor lt) (speech_recognizer lt) (translator lt)
    (translation_cache lt) (segment_duration lt) (source_language lt)
    (target_language lt) (state lt) (current_url lt) (audio_queue lt)
    (workers lt) (Some cb) (error_callback lt)
    (state_callback lt) (stats lt) (calls lt) (events lt).
Definition set_error_callback (cb : error_message → res unit)
    (lt : LiveTranslator) : LiveTranslator :=
  mk_LiveTranslator (audio_extractor lt) (speech_recognizer lt) (translator lt)
    (translation_cache lt) (segment_duration lt) (source_language lt)
    (target_language lt) (state lt) (current_url lt) (audio_queue lt)
    (workers lt) (transcription_callback lt) (Some cb)
    (state_callback lt) (stats lt) (calls lt) (events lt).
Definition set_state_callback (cb : ProcessingState → res unit)
    (lt : LiveTranslator) : LiveTranslator :=
  mk_LiveTranslator (audio_extractor lt) (speech_recognizer lt) (translator lt)
    (translation_cache lt) (segment_duration lt) (source_language lt)
    (target_language lt) (state lt) (current_url lt) (audio_queue lt)
    (workers lt) (transcription_callback lt) (error_callback lt)
    (Some cb) (stats lt) (calls lt) (events lt).

(** Calling a registered observer: the call is recorded, whatever the
    observer raises is logged and dropped. *)
Definition notify {A : Type} (cb : observer A) (ev : event)
    (lt : LiveTranslator) : LiveTranslator :=
  match cb with
  | Some _ => with_events (events lt ++ [ev]) lt
  | None => lt
  end.

(** [LiveTranslator._update_state]. *)
Definition _update_state (new_state : ProcessingState) (lt : LiveTranslator)
    : LiveTranslator :=
  if decide (state lt = new_state) then lt
  else
    let lt1 := with_state new_state lt in
    notify (state_callback lt1) (EvState new_state) lt1.

Definition count_error (s : Stats) : Stats :=
  {| segments_processed := segments_processed s;
     total_audio_time := total_audio_time s;
     total_processing_time := total_processing_time s;
     errors := errors s + 1;
     cache_hits := cache_hits s; cache_misses := cache_misses s |}.

(** [LiveTranslator._handle_error]. *)
Definition _handle_error (error_message : error_message) (lt : LiveTranslator)
    : LiveTranslator :=
  let lt1 := with_stats (count_error (stats lt)) lt in
  let lt2 := _update_state ERROR lt1 in
  notify (error_callback lt2) (EvError error_message) lt2.

(** ** Computations on the coordinator that may raise *)

Definition M (A : Type) : Type := LiveTranslator → res A * LiveTranslator.

Global Instance M_ret : MRet M := λ A a lt, (Ret a, lt).
Global Instance M_bind : MBind M := λ A B f m lt,
  match m lt with
  | (Ret a, lt1) => f a lt1
  | (Raise e, lt1) => (Raise e, lt1)
  end.

Definition gets {A : Type} (f : LiveTranslator → A) : M A :=
  λ lt, (Ret (f lt), lt).
Definition modify (f : LiveTranslator → LiveTranslator) : M unit :=
  λ lt, (Ret (), f lt).

Inductive loop_signal : Type := Continue | Break.
Inductive worker_status : Type := Exited | Looping.

Definition count_cache_hit (s : Stats) : Stats :=
  {| segments_processed := segments_processed s;
     total_audio_time := total_audio_time s;
     total_processing_time := total_processing_time s;
     errors := errors s;
     cache_hits := cache_hits s + 1; cache_misses := cache_misses s |}.
Definition count_cache_miss (s : Stats) : Stats :=
  {| segments_processed := segments_processed s;
     total_audio_time := total_audio_time s;
     total_processing_time := total_processing_time s;
     errors := errors s;
     cache_hits := cache_hits s; cache_misses := cache_misses s + 1 |}.
(** The three updates that close a processed segment. *)
Definition count_segment (processing_time : Q) (segment_duration : Z)
    (s : Stats) : Stats :=
  {| segments_processed := segments_processed s + 1;
     total_audio_time := (total_audio_time s + inject_Z segment_duration)%Q;
     total_processing_time := (total_processing_time s + processing_time)%Q;
     errors := errors s;
     cache_hits := cache_hits s; cache_misses := cache_misses s |}.

Section Coordinator.
Variable w : World.

(** [time.time()]. *)
Definition now : M Q := λ lt,
  (Ret (time_time w (n_time (calls lt))), with_calls (tick_time (calls lt)) lt).

(** [self.speech_recognizer.transcribe_audio_data(audio_data, language)]. *)
Definition recognize (audio_data : list Byte.byte) (language : pystr)
    : M (option pystr) := λ lt,
  let '(r, c) :=
    transcribe_audio_data w (speech_recognizer lt) audio_data language
      (calls lt) in
  (Ret r, with_calls c lt).

(** [self.translator.translate_text(text, source, target)]. *)
Definition translate (text source_lang target_lang : pystr)
    : M (option pystr) := λ lt,
  let '(r, t, c) :=
    translate_text w text source_lang target_lang None (translator lt)
      (calls lt) in
  (Ret r, with_calls c (with_translator t lt)).

(** A method of [self.translation_cache]. *)
Definition on_cache {A : Type}
    (op : TranslationCache → res A * TranslationCache) : M A := λ lt,
  let '(r, c) := op (translation_cache lt) in
  (r, with_translation_cache c lt).

(** The body of [if transcription and transcription.strip():] in
    [_audio_processing_worker]. *)
Definition process_transcription (start_time : Q) (transcription : pystr)
    : M unit :=
  source ← gets source_language;
  target ← gets target_language;
  cached_translation ←
    on_cache (cache_get (str_hash w) transcription source target);
  translation ←
    (if truthy_opt cached_translation then
       modify (λ lt, with_stats (count_cache_hit (stats lt)) lt) ;;
       mret cached_translation
     else
       translation ← translate transcription source target;
       (if truthy_opt translation then
          on_cache (cache_set (str_hash w) transcription source target
                      (or_empty translation))
        else mret ()) ;;
       modify (λ lt, with_stats (count_cache_miss (stats lt)) lt) ;;
       mret translation);
  let confidence :=
    get_translation_confidence transcription (or_empty translation) in
  timestamp ← now;
  language ← gets source_language;
  let result :=
    {| timestamp := timestamp; original_text := transcription;
       translated_text := translation; confidence := confidence;
       language := language |} in
  modify (λ lt, notify (transcription_callback lt) (EvTranscription result) lt) ;;
  end_time ← now;
  let processing_time := (end_time - start_time)%Q in
  modify (λ lt,
    with_stats (count_segment processing_time (segment_duration lt) (stats lt))
      lt).

(** The [try] block of one turn of the loop of
    [_audio_processing_worker]. *)
Definition worker_body : M loop_signal :=
  queue ← gets audio_queue;
  match queue with
  | [] => mret Continue                       (* time.sleep(0.1) *)
  | item :: rest =>
      modify (with_audio_queue rest) ;;
      match item with
      | None => mret Break
      | Some audio_data =>
          start_time ← now;
          source ← gets source_language;
          transcription ← recognize audio_data source;
          match transcription with
          | Some text =>
              if truthy text && truthy (strip text)
              then process_transcription start_time text
              else mret ()
          | None => mret ()
          end ;;
          mret Continue
      end
  end.

(** One turn of the loop: the [try] block and its [except Exception]. *)
Definition worker_turn (lt : LiveTranslator) : loop_signal * LiveTranslator :=
  match worker_body lt with
  | (Ret signal, lt1) => (signal, lt1)
  | (Raise e, lt1) =>
      (Continue, _handle_error (AudioProcessingError e) lt1) (* time.sleep(1) *)
  end.

(** The guard of the loop. *)
Definition worker_guard (lt : LiveTranslator) : bool :=
  bool_decide (state lt = RUNNING ∨ state lt = STARTING).

(** [LiveTranslator._audio_processing_worker], run for at most [turns]
    turns of its loop: [Exited] with the state it leaves, or [Looping] with
    the state reached when the turns are used up. *)
Fixpoint _audio_processing_worker (turns : nat) (lt : LiveTranslator)
    : worker_status * LiveTranslator :=
  if worker_guard lt then
    match turns with
    | O => (Looping, lt)
    | S n =>
        match worker_turn lt with
        | (Break, lt1) => (Exited, lt1)
        | (Continue, lt1) => _audio_processing_worker n lt1
        end
    end
  else (Exited, lt).

(** [LiveTranslator.start_translation]. Nothing in its [try] block raises
    in this embedding (the extractor catches what yt-dlp raises), so the
    [except] clause has no case. *)
Definition start_translation (youtube_url : pystr) (lt : LiveTranslator)
    : bool * LiveTranslator :=
  if negb (bool_decide (state lt = STOPPED)) then (false, lt)
  else
    let lt := _update_state STARTING lt in
    let lt := with_current_url (Some youtube_url) lt in
    let '(live, c) := is_live_stream w youtube_url (calls lt) in
    let lt := with_calls c lt in
    if negb live then (false, _handle_error NotALiveStream lt)
    else
      let '(info, c) := get_stream_info w youtube_url (calls lt) in
      let lt := with_calls c lt in
      match info with
      | None => (false, _handle_error StreamInfoUnavailable lt)
      | Some _ =>
          (* worker_thread.start(); self.workers.append(worker_thread) *)
          let lt := with_workers (S (workers lt)) lt in
          (* self.audio_extractor.start_continuous_extraction(...) *)
          let lt := with_audio_extractor {| is_streaming := true |} lt in
          (true, _update_state RUNNING lt)
      end.

(** [LiveTranslator.stop_translation]. The joins wait for the worker
    threads and change no field; nothing in the [try] block raises. *)
Definition stop_translation (lt : LiveTranslator) : LiveTranslator :=
  let lt := _update_state STOPPING lt in
  (* self.audio_extractor.stop_extraction() *)
  let lt := with_audio_extractor {| is_streaming := false |} lt in
  (* self.audio_queue.put(None) *)
  let lt := with_audio_queue (audio_queue lt ++ [None]) lt in
  (* for worker in self.workers: worker.join(timeout=5) *)
  (* self.workers.clear() *)
  let lt := with_workers 0 lt in
  (* while not self.audio_queue.empty(): self.audio_queue.get_nowait() *)
  let lt := with_audio_queue [] lt in
  _update_state STOPPED lt.

End Coordinator.

(** What [get_stats] returns: the counters and the three derived values. *)
Record StatsReport : Type := mk_StatsReport {
  counters : Stats;
  avg_processing_time : Q;
  processing_speed_ratio : Q;
  cache_hit_rate : Q;
}.

(** [LiveTranslator.get_stats]. *)
Definition get_stats (lt : LiveTranslator) : res StatsReport :=
  let stats := stats lt in                                (* self.stats.copy() *)
  match
    (if 0 <? segments_processed stats then
       match py_truediv (total_processing_time stats)
                        (inject_Z (segments_processed stats)) with
       | Raise e => Raise e
       | Ret avg =>
           match py_truediv (total_audio_time stats)
                            (total_processing_time stats) with
           | Raise e => Raise e
           | Ret ratio => Ret (avg, ratio)
           end
       end
     else Ret (0%Q, 0%Q))
  with
  | Raise e => Raise e
  | Ret (avg, ratio) =>
      let total_requests := cache_hits stats + cache_misses stats in
      match
        (if 0 <? total_requests then
           py_truediv (inject_Z (cache_hits stats)) (inject_Z total_requests)
         else Ret 0%Q)
      with
      | Raise e => Raise e
      | Ret rate =>
          Ret {| counters := stats; avg_processing_time := avg;
                 processing_speed_ratio := ratio; cache_hit_rate := rate |}
      end
  end.

(** [LiveTranslator.reset_stats]. *)
Definition reset_stats (lt : LiveTranslator) : LiveTranslator :=
  with_stats fresh_stats lt.

(** ** Vocabulary of the properties *)

(** The length ratio of the source: the shorter length over the longer. *)
Definition length_ratio (original translated : pystr) : Q :=
  (Q_of_nat (length translated `min` length original)
   / Q_of_nat (length translated `max` length original))%Q.

(** A call on a [TranslationCache]. *)
Inductive cache_op : Type :=
  | Get (text source_lang target_lang : pystr)
  | Put (text source_lang target_lang translation : pystr)   (* [set] *)
  | Clear.

(** Recency as the specification words it: a key's last use is the latest
    moment at which [get] returned it or, if [get] never did since, the
    moment it was inserted as a new key. [last_use] keeps these moments on a
    logical clock of uses. *)
Record recency : Type := mk_recency {
  last_use : gmap pystr nat;
  uses : nat;
}.

Definition no_uses : recency := {| last_use := ∅; uses := 0 |}.

Definition stamp (v : recency) (k : pystr) : nat := default 0%nat (last_use v !! k).

Definition touch (k : pystr) (v : recency) : recency :=
  {| last_use := <[k := uses v]> (last_use v); uses := S (uses v) |}.

Section CacheRuns.
Variable hash : pystr → Z.

(** One call: what it raises, if anything, and the cache it leaves. *)
Definition cache_step (o : cache_op) (c : TranslationCache)
    : res unit * TranslationCache :=
  match o with
  | Get text s t =>
      match cache_get hash text s t c with
      | (Ret _, c1) => (Ret (), c1)
      | (Raise e, c1) => (Raise e, c1)
      end
  | Put text s t translation => cache_set hash text s t translation c
  | Clear => (Ret (), cache_clear c)
  end.

(** The uses a call makes, read off the cache it is made on: a [get] that
    hits uses its key, a [set] of a key that is not stored uses it, and
    nothing else is a use. *)
Definition observe (o : cache_op) (c : TranslationCache) (v : recency)
    : recency :=
  match o with
  | Get text s t =>
      let k := _make_key hash text s t in
      if bool_decide (is_Some (cache c !! k)) then touch k v else v
  | Put text s t _ =>
      let k := _make_key hash text s t in
      if bool_decide (is_Some (cache c !! k)) then v else touch k v
  | Clear => v
  end.

(** A sequence of calls, with the recency of the keys kept alongside;
    [None] when a call raises. *)
Fixpoint cache_run (ops : list cache_op) (c : TranslationCache) (v : recency)
    : option (TranslationCache * recency) :=
  match ops with
  | [] => Some (c, v)
  | o :: ops' =>
      match cache_step o c with
      | (Ret _, c1) => cache_run ops' c1 (observe o c v)
      | (Raise _, _) => None
      end
  end.

(** The stored key that was used least recently. *)
Definition least_recently_used (c : TranslationCache) (v : recency)
    (victim : pystr) : Prop :=
  is_Some (cache c !! victim) ∧
  ∀ k, is_Some (cache c !! k) → k ≠ victim → (stamp v victim < stamp v k)%nat.

(** The stored key that was used most recently. *)
Definition most_recently_used (c : TranslationCache) (v : recency)
    (k : pystr) : Prop :=
  is_Some (cache c !! k) ∧
  ∀ k', is_Some (cache c !! k') → k' ≠ k → (stamp v k' < stamp v k)%nat.

(** [access_order] lists the stored keys, each once, least recently used
    first. *)
Definition order_inv (c : TranslationCache) (v : recency) : Prop :=
  (∀ k, k ∈ access_order c ↔ is_Some (cache c !! k)) ∧
  StronglySorted lt (stamp v <$> access_order c) ∧
  Forall (λ k, (stamp v k < uses v)%nat) (access_order c).

(** What every cache reached from a fresh one of capacity at least 1
    satisfies. *)
Definition cache_inv (c : TranslationCache) (v : recency) : Prop :=
  1 ≤ max_size c ∧
  Z.of_nat (size (cache c)) ≤ max_size c ∧
  order_inv c v.

End CacheRuns.

(** What a turn of the worker leaves alone when nothing raises. *)
Definition turn_frame (lt lt' : LiveTranslator) : Prop :=
  state lt' = state lt ∧
  errors (stats lt') = errors (stats lt) ∧
  transcription_callback lt' = transcription_callback lt ∧
  speech_recognizer lt' = speech_recognizer lt ∧
  source_language lt' = source_language lt.

(** ** Concrete worlds and coordinators for the examples *)

(** The hash of the example worlds. *)
Definition length_hash (s : pystr) : Z := Z.of_nat (length s).

(** A world given by its clock and by what the recognizer and the translation
    back end answer to their [n]-th request; every stream is live and the
    hash of a string is its length. *)
Definition example_world (clock : nat → Q) (heard translated : nat → res pystr)
    : World :=
  {| time_time := clock;
     whisper := λ _ n _ _, heard n;
     translate_backend := λ _ n _ _ _ _, translated n;
     extract_info := λ _ _, Ret {| si_title := u "live"; si_is_live := true |};
     str_hash := length_hash |}.

Definition ticking_clock (n : nat) : Q := inject_Z (Z.of_nat n).

(** A coordinator with the three observers registered, in the given state,
    with the given segments queued. *)
Definition example_translator (cache_size : Z) (s : ProcessingState)
    (segments : list (list Byte.byte)) : LiveTranslator :=
  with_audio_queue (Some <$> segments)
    (with_state s
       (set_state_callback (λ _, Ret ())
          (set_error_callback (λ _, Ret ())
             (set_transcription_callback (λ _, Ret ())
                (LiveTranslator_init false GOOGLE 10 cache_size))))).

Definition segment_1 : list Byte.byte := [Byte.x01].
Definition segment_2 : list Byte.byte := [Byte.x02].
Definition segment_3 : list Byte.byte := [Byte.x03].

(** A clock that gives the listed readings in turn. *)
Definition clock_of_readings (readings : list Q) (n : nat) : Q :=
  nth n readings 0%Q.

(** Two segments, processed in 2 and in 4 seconds: each is a cache miss and
    so reads the clock five times (start, twice in the rate limit, time
    stamp, end). *)
Definition two_segments_world : World :=
  example_world
    (clock_of_readings
       [100; 201 # 2; 101; 203 # 2; 102; 110; 111; 112; 113; 114]%Q)
    (λ n, match n with 0%nat => Ret (u "hello") | _ => Ret (u "goodbye") end)
    (λ _, Ret (u "konnichiwa")).

Definition after_two_segments : LiveTranslator :=
  (_audio_processing_worker two_segments_world 2
     (example_translator 500 RUNNING [segment_1; segment_2])).2.

(** One segment, processed between readings of a clock that does not move:
    [time.time()] has a finite resolution and is not monotonic. *)
Definition stopped_clock_world : World :=
  example_world (λ _, 100%Q) (λ _, Ret (u "hello")) (λ _, Ret (u "konnichiwa")).

Definition after_instant_segment : LiveTranslator :=
  (_audio_processing_worker stopped_clock_world 1
     (example_translator 500 RUNNING [segment_1])).2.

(** A clock that moves forward between any two readings. *)
Definition clock_advances (w : World) : Prop :=
  ∀ n m, (n < m)%nat → (time_time w n < time_time w m)%Q.

(** Counters as the worker leaves them under such a clock: processed
    segments took time. *)
Definition stats_sane (s : Stats) : Prop :=
  0 ≤ segments_processed s ∧
  (0 <= total_processing_time s)%Q ∧
  (0 < segments_processed s → (0 < total_processing_time s)%Q).

(** * Properties *)

Arguments _make_key : simpl never.
Arguments cache_get : simpl never.
Arguments cache_set : simpl never.
Arguments strip : simpl never.
Arguments get_translation_confidence : simpl never.

(** ** Strings *)

Lemma lstrip_nil_iff (s : pystr) : lstrip s = [] ↔ forallb isspace s = true.
Proof.
  induction s as [|c s IH]; simpl; [done|].
  destruct (isspace c) eqn:Hc; simpl; [done|]. split; discriminate.
Qed.

Lemma lstrip_head (s : pystr) c s' : lstrip s = c :: s' → isspace c = false.
Proof.
  induction s as [|d s IH]; simpl; [done|].
  destruct (isspace d) eqn:Hd; [done|]. by intros [= <- _].
Qed.

Lemma forallb_isspace_rev (s : pystr) :
  forallb isspace (rev s) = forallb isspace s.
Proof.
  induction s as [|c s IH]; simpl; [done|].
  rewrite forallb_app, IH. simpl. rewrite andb_true_r. apply andb_comm.
Qed.

(** [not text.strip()] holds exactly of the strings made of white space
    only, the empty one included. *)
Lemma strip_nil_iff (s : pystr) : strip s = [] ↔ forallb isspace s = true.
Proof.
  unfold strip. split.
  - intros H. apply (f_equal (@rev N)) in H. rewrite rev_involutive in H.
    simpl in H. apply lstrip_nil_iff in H. rewrite forallb_isspace_rev in H.
    destruct (lstrip s) as [|c s'] eqn:Hs; [by apply lstrip_nil_iff|].
    apply lstrip_head in Hs. simpl in H. by rewrite Hs in H.
  - intros H. apply lstrip_nil_iff in H. by rewrite H.
Qed.

Lemma strip_truthy_length (s : pystr) :
  truthy (strip s) = true → (0 < length s)%nat.
Proof.
  destruct s; simpl; [|lia]. by vm_compute.
Qed.

Lemma lstrip_fixed (s : pystr) :
  match s with c :: _ => isspace c = false | [] => True end → lstrip s = s.
Proof. destruct s as [|c s]; simpl; [done|]. by intros ->. Qed.

Lemma lstrip_split (s : pystr) :
  ∃ spaces, s = spaces ++ lstrip s ∧ forallb isspace spaces = true.
Proof.
  induction s as [|c s (spaces & IH & Hsp)]; simpl; [by exists []|].
  destruct (isspace c) eqn:Hc; [|by exists []].
  exists (c :: spaces). simpl. rewrite Hc, Hsp. split; [by f_equal|done].
Qed.

(** [strip] is idempotent: the recognizer's stripped transcript is its own
    strip. *)
Lemma strip_idemp (s : pystr) : strip (strip s) = strip s.
Proof.
  unfold strip.
  destruct (lstrip_split (rev (lstrip s))) as (spaces & Hsplit & _).
  destruct (lstrip (rev (lstrip s))) as [|c b] eqn:Hb; [done|].
  assert (lstrip (rev (c :: b)) = rev (c :: b)) as ->.
  { apply lstrip_fixed.
    apply (f_equal (@rev N)) in Hsplit.
    rewrite rev_involutive, rev_app_distr in Hsplit.
    destruct (rev (c :: b)) as [|d r] eqn:Hr.
    - apply (f_equal (@length N)) in Hr. rewrite length_rev in Hr. done.
    - simpl in Hsplit. by eapply lstrip_head. }
  rewrite rev_involutive, lstrip_fixed; [done|].
  by eapply lstrip_head.
Qed.

(** ** [Translator.get_translation_confidence] *)

Lemma Q_of_nat_pos (n : nat) : (0 < n)%nat → (0 < Q_of_nat n)%Q.
Proof.
  intros H. unfold Q_of_nat, Qlt. simpl. lia.
Qed.

Lemma Q_of_nat_le (n m : nat) : (n ≤ m)%nat → (Q_of_nat n <= Q_of_nat m)%Q.
Proof.
  intros H. unfold Q_of_nat, Qle. simpl. lia.
Qed.

Lemma length_ratio_le_1 (original translated : pystr) :
  (0 < length translated)%nat → (length_ratio original translated <= 1)%Q.
Proof.
  intros H. unfold length_ratio.
  apply Qle_shift_div_r; [apply Q_of_nat_pos; lia|].
  rewrite Qmult_1_l. apply Q_of_nat_le. lia.
Qed.

Lemma get_translation_confidence_eq (original translated : pystr) :
  (get_translation_confidence original translated ==
   if negb (truthy (strip original)) || negb (truthy (strip translated))
   then 0 else (7 # 10) * length_ratio original translated)%Q.
Proof.
  unfold get_translation_confidence.
  destruct (truthy (strip original)) eqn:Ho; simpl; [|reflexivity].
  destruct (truthy (strip translated)) eqn:Ht; simpl; [|reflexivity].
  pose proof (strip_truthy_length _ Ht) as Hlen.
  unfold py_truediv.
  destruct (Qeq_bool _ 0) eqn:Hz.
  - apply Qeq_bool_eq in Hz.
    pose proof (Q_of_nat_pos (length translated `max` length original)) as Hp.
    rewrite Hz in Hp. exfalso. apply (Qlt_irrefl 0), Hp. lia.
  - fold (length_ratio original translated). apply Q.min_l.
    pose proof (length_ratio_le_1 original translated Hlen). lra.
Qed.

(** C9. For every pair of strings the confidence is at most 0.7, and it is
    0.7 times the length ratio (the shorter length over the longer) unless
    one of the two strings is blank, where it is 0: no input scores above
    0.7. *)
Theorem get_translation_confidence_at_most_07 (original translated : pystr) :
  (get_translation_confidence original translated <= 7 # 10)%Q ∧
  (get_translation_confidence original translated ==
   if negb (truthy (strip original)) || negb (truthy (strip translated))
   then 0 else (7 # 10) * length_ratio original translated)%Q.
Proof.
  split; [|apply get_translation_confidence_eq].
  rewrite get_translation_confidence_eq.
  destruct (truthy (strip original)) eqn:Ho; simpl; [|done].
  destruct (truthy (strip translated)) eqn:Ht; simpl; [|done].
  pose proof (length_ratio_le_1 original translated
                (strip_truthy_length _ Ht)). lra.
Qed.

(** Equal lengths reach the bound: [hello] against the five code points of
    its Japanese translation scores 0.7. *)
Example confidence_of_equal_lengths :
  (get_translation_confidence (u "hello")
     [12371; 12435; 12395; 12385; 12399]%N == 7 # 10)%Q.
Proof. reflexivity. Qed.

(** ** [TranslationCache] *)

Lemma list_remove_Some_inv k l l' :
  list_remove k l = Some l' → ∃ l1 l2, l = l1 ++ k :: l2 ∧ l' = l1 ++ l2.
Proof.
  revert l'. induction l as [|y l IH]; intros l'; simpl; [done|].
  destruct (decide (k = y)) as [->|Hne].
  - intros [= <-]. by exists [], l.
  - destruct (list_remove k l) as [l0|]; simpl; [|done].
    intros [= <-]. destruct (IH l0 eq_refl) as (l1 & l2 & -> & ->).
    by exists (y :: l1), l2.
Qed.

Lemma list_remove_is_Some k l : k ∈ l → is_Some (list_remove k l).
Proof.
  induction l as [|y l IH]; [by intros ?%elem_of_nil|].
  intros Hin. simpl. destruct (decide (k = y)); [by eexists|].
  apply elem_of_cons in Hin as [?|Hin]; [done|].
  destruct (IH Hin) as [l' ->]. by eexists.
Qed.

Lemma sorted_lt_NoDup (l : list nat) : StronglySorted lt l → NoDup l.
Proof.
  induction 1 as [|x l _ IH Hall]; constructor; [|done].
  intros Hin. rewrite Forall_forall in Hall. specialize (Hall x Hin). lia.
Qed.

Lemma stamp_touch_eq k v : stamp (touch k v) k = uses v.
Proof. unfold stamp, touch. simpl. by rewrite lookup_insert_eq. Qed.

Lemma stamp_touch_ne k k' v : k' ≠ k → stamp (touch k v) k' = stamp v k'.
Proof. intros H. unfold stamp, touch. simpl. by rewrite lookup_insert_ne. Qed.

Lemma fmap_stamp_touch k v (l : list pystr) :
  k ∉ l → stamp (touch k v) <$> l = stamp v <$> l.
Proof.
  intros Hk. apply list_fmap_ext. intros i x Hx.
  apply stamp_touch_ne. intros ->. apply Hk. by eapply list_elem_of_lookup_2.
Qed.

Section CacheProofs.
Variable hash : pystr → Z.

Lemma order_inv_NoDup c v : order_inv c v → NoDup (access_order c).
Proof.
  intros (_ & Hs & _). eapply NoDup_fmap_1, sorted_lt_NoDup, Hs.
Qed.

Lemma order_inv_size c v :
  order_inv c v → size (cache c) = length (access_order c).
Proof.
  intros Hinv. pose proof (order_inv_NoDup _ _ Hinv) as Hnd.
  destruct Hinv as (Hmem & _).
  rewrite <- (size_dom (D := gset pystr)).
  rewrite <- (size_list_to_set (C := gset pystr) _ Hnd).
  f_equal. apply set_eq. intros k.
  by rewrite elem_of_dom, elem_of_list_to_set, Hmem.
Qed.

(** Appending a key that is not stored, as the use of this moment. *)
Lemma order_inv_append c v k translation :
  order_inv c v → cache c !! k = None →
  order_inv
    {| cache := <[k := translation]> (cache c); max_size := max_size c;
       access_order := access_order c ++ [k] |}
    (touch k v).
Proof.
  intros (Hmem & Hs & Hlt) Hk.
  assert (k ∉ access_order c) as Hnotin.
  { rewrite Hmem, Hk. by intros [? ?]. }
  split_and!; simpl.
  - intros k'. rewrite elem_of_app, list_elem_of_singleton, Hmem.
    rewrite lookup_insert_is_Some. destruct (decide (k = k')); naive_solver.
  - rewrite fmap_app, fmap_stamp_touch by done. simpl.
    rewrite stamp_touch_eq. apply StronglySorted_app. split_and!.
    + intros x1 x2 Hx1 ->%list_elem_of_singleton.
      apply list_elem_of_fmap in Hx1 as (k1 & -> & Hk1).
      rewrite Forall_forall in Hlt. by apply Hlt.
    + done.
    + repeat constructor.
  - apply Forall_app. split.
    + rewrite Forall_forall in Hlt |- *. intros k' Hk'.
      rewrite stamp_touch_ne by (intros ->; done).
      specialize (Hlt k' Hk'). lia.
    + constructor; [|done]. rewrite stamp_touch_eq. lia.
Qed.

(** Dropping one key from the order and from the store. *)
Lemma order_inv_drop c v l1 l2 k :
  order_inv c v → access_order c = l1 ++ k :: l2 →
  order_inv
    {| cache := delete k (cache c); max_size := max_size c;
       access_order := l1 ++ l2 |} v ∧
  is_Some (cache c !! k) ∧ k ∉ l1 ++ l2.
Proof.
  intros Hinv Hl. pose proof (order_inv_NoDup _ _ Hinv) as Hnd.
  destruct Hinv as (Hmem & Hs & Hlt). rewrite Hl in *.
  assert (k ∉ l1 ++ l2) as Hnotin.
  { apply NoDup_app in Hnd as (_ & H1 & H2%NoDup_cons).
    rewrite elem_of_app. intros [?|?]; [|naive_solver].
    eapply H1; [done|]. by left. }
  split_and!; [|by apply Hmem; set_solver|done].
  unfold order_inv. split_and!; simpl.
  - intros k'. rewrite lookup_delete_is_Some, <- Hmem.
    rewrite !elem_of_app, elem_of_cons in *. naive_solver.
  - rewrite fmap_app in *. rewrite fmap_cons in Hs.
    apply StronglySorted_app in Hs as (H12 & H1 & H2%StronglySorted_cons).
    apply StronglySorted_app. split_and!; [|done|naive_solver].
    intros x1 x2 Hx1 Hx2. apply H12; [done|]. by right.
  - rewrite Forall_app, Forall_cons in Hlt. apply Forall_app. naive_solver.
Qed.

Lemma cache_inv_init (m : Z) : 1 ≤ m → cache_inv (TranslationCache_init m) no_uses.
Proof.
  intros Hm. unfold cache_inv, order_inv. simpl. rewrite map_size_empty.
  split_and!; [done|lia| |constructor|constructor].
  intros k. rewrite lookup_empty, elem_of_nil. split; [done|by intros [? ?]].
Qed.

(** A [get] that hits returns the stored value, keeps the store and makes
    its key the most recently used one. *)
Lemma cache_get_hit c v text s t value :
  let k := _make_key hash text s t in
  cache_inv c v → cache c !! k = Some value →
  ∃ c', cache_get hash text s t c = (Ret (Some value), c') ∧
        cache c' = cache c ∧ max_size c' = max_size c ∧
        cache_inv c' (touch k v) ∧ most_recently_used c' (touch k v) k.
Proof.
  intros k (Hmax & Hsize & Hinv) Hk.
  pose proof Hinv as (Hmem & _ & Hlt).
  assert (k ∈ access_order c) as Hin by (apply Hmem; by eexists).
  destruct (list_remove_is_Some _ _ Hin) as [l Hl].
  unfold cache_get. fold k. rewrite Hk, Hl. eexists. split; [done|]. simpl.
  apply list_remove_Some_inv in Hl as (l1 & l2 & Hl12 & ->).
  destruct (order_inv_drop _ _ _ _ _ Hinv Hl12) as (Hdrop & _ & Hnotin).
  pose proof (order_inv_append _ _ k value Hdrop (lookup_delete_eq _ _)) as Happ.
  simpl in Happ. rewrite insert_delete_id in Happ by done.
  split_and!; [done|done| |].
  - by split_and!.
  - split; simpl; [by eexists|]. intros k' Hk' Hne.
    rewrite stamp_touch_eq, stamp_touch_ne by done.
    rewrite Forall_forall in Hlt. by apply Hlt, Hmem.
Qed.

Lemma cache_get_miss c text s t :
  cache c !! _make_key hash text s t = None →
  cache_get hash text s t c = (Ret None, c).
Proof. intros Hk. unfold cache_get. by rewrite Hk. Qed.

(** A [set] of a stored key overwrites its value and nothing else. *)
Lemma cache_set_stored c v text s t translation :
  let k := _make_key hash text s t in
  cache_inv c v → is_Some (cache c !! k) →
  ∃ c', cache_set hash text s t translation c = (Ret (), c') ∧
        cache c' = <[k := translation]> (cache c) ∧
        access_order c' = access_order c ∧
        max_size c' = max_size c ∧ cache_inv c' v.
Proof.
  intros k (Hmax & Hsize & Hinv) Hk. pose proof Hinv as (Hmem & Hs & Hlt).
  unfold cache_set. fold k. rewrite (bool_decide_eq_true_2 _ Hk).
  rewrite andb_false_r. eexists. split; [done|]. unfold store. simpl.
  rewrite decide_True by by apply Hmem.
  split_and!; try done.
  unfold cache_inv, order_inv. simpl. split_and!; try done.
  - destruct Hk as [x Hk]. by rewrite map_size_insert_Some.
  - intros k'. rewrite Hmem, lookup_insert_is_Some.
    destruct (decide (k = k')) as [<-|]; naive_solver.
Qed.

(** A [set] of a key that is not stored, below capacity, adds it. *)
Lemma cache_set_room c v text s t translation :
  let k := _make_key hash text s t in
  cache_inv c v → cache c !! k = None →
  Z.of_nat (size (cache c)) < max_size c →
  ∃ c', cache_set hash text s t translation c = (Ret (), c') ∧
        cache c' = <[k := translation]> (cache c) ∧
        max_size c' = max_size c ∧ cache_inv c' (touch k v).
Proof.
  intros k (Hmax & Hsize & Hinv) Hk Hroom. pose proof Hinv as (Hmem & _).
  unfold cache_set. fold k.
  rewrite (proj2 (Z.leb_gt _ _) Hroom). simpl.
  eexists. split; [done|]. unfold store. simpl.
  rewrite decide_False by (rewrite Hmem, Hk; by intros [? ?]).
  split_and!; try done.
  unfold cache_inv. simpl. split_and!; try done.
  - rewrite map_size_insert_None by done. lia.
  - by apply order_inv_append.
Qed.

(** A [set] of a key that is not stored, at capacity, evicts the least
    recently used key, and only that one, then adds the new key. *)
Lemma cache_set_full c v text s t translation :
  let k := _make_key hash text s t in
  cache_inv c v → cache c !! k = None →
  Z.of_nat (size (cache c)) = max_size c →
  ∃ victim c',
    cache_set hash text s t translation c = (Ret (), c') ∧
    least_recently_used c v victim ∧
    cache c' = <[k := translation]> (delete victim (cache c)) ∧
    size (cache c') = size (cache c) ∧
    max_size c' = max_size c ∧ cache_inv c' (touch k v).
Proof.
  intros k (Hmax & Hsize & Hinv) Hk Hfull.
  pose proof Hinv as (Hmem & Hs & Hlt).
  pose proof (order_inv_size _ _ Hinv) as Hlen.
  destruct (access_order c) as [|oldest l] eqn:Hao; simpl in Hlen; [lia|].
  destruct (order_inv_drop _ _ [] l oldest Hinv Hao)
    as (Hdrop & [x Hold] & Hnotin). simpl in Hdrop, Hnotin.
  assert (k ≠ oldest) as Hne by (intros ->; congruence).
  assert (delete oldest (cache c) !! k = None) as Hk'
    by by rewrite lookup_delete_ne.
  pose proof (order_inv_append _ _ k translation Hdrop Hk') as Happ.
  simpl in Happ.
  assert (size (<[k:=translation]> (delete oldest (cache c))) = size (cache c))
    as Hsz.
  { rewrite map_size_insert_None, map_size_delete_Some by done. lia. }
  exists oldest. eexists. unfold cache_set. fold k.
  rewrite (proj2 (Z.leb_le _ _)) by lia.
  rewrite bool_decide_eq_false_2 by (rewrite Hk; by intros [? ?]). simpl.
  unfold evict_oldest. rewrite Hao, Hold. split; [done|].
  unfold store. simpl.
  rewrite decide_False
    by (intros Hin; destruct (proj1 (Hmem k)) as [? ?];
        [by right|congruence]).
  split_and!; simpl; try done;
    [|unfold cache_inv; simpl; split_and!; try done; rewrite Hsz; lia].
  split; [by eexists|]. intros k' Hk'' Hne'.
  apply Hmem, elem_of_cons in Hk'' as [?|Hin]; [done|].
  simpl in Hs. apply StronglySorted_cons in Hs as [Hs _].
  rewrite Forall_forall in Hs. apply Hs, list_elem_of_fmap. by exists k'.
Qed.

(** Whatever the case, [set] returns, and the key then maps to the
    value. *)
Lemma cache_set_returns c v text s t translation :
  let k := _make_key hash text s t in
  cache_inv c v →
  ∃ c', cache_set hash text s t translation c = (Ret (), c') ∧
        cache c' !! k = Some translation ∧
        max_size c' = max_size c ∧
        cache_inv c' (observe hash (Put text s t translation) c v).
Proof.
  intros k Hinv. unfold observe. fold k.
  destruct (cache c !! k) as [x|] eqn:Hk.
  - rewrite bool_decide_eq_true_2 by by eexists.
    destruct (cache_set_stored c v text s t translation Hinv)
      as (c' & -> & Hc & _ & ? & ?); [by eexists|].
    exists c'. rewrite Hc. by rewrite lookup_insert_eq.
  - rewrite bool_decide_eq_false_2 by by intros [? ?].
    pose proof Hinv as (_ & Hsize & _).
    destruct (decide (Z.of_nat (size (cache c)) = max_size c)) as [Hfull|Hroom].
    + destruct (cache_set_full c v text s t translation Hinv Hk Hfull)
        as (victim & c' & -> & _ & Hc & _ & ? & ?).
      exists c'. rewrite Hc. by rewrite lookup_insert_eq.
    + destruct (cache_set_room c v text s t translation Hinv Hk)
        as (c' & -> & Hc & ? & ?); [lia|].
      exists c'. rewrite Hc. by rewrite lookup_insert_eq.
Qed.

(** No call raises on a cache that satisfies the invariant, and every call
    keeps the invariant and the capacity. *)
Lemma cache_step_inv o c v :
  cache_inv c v →
  ∃ c', cache_step hash o c = (Ret (), c') ∧ max_size c' = max_size c ∧
        cache_inv c' (observe hash o c v).
Proof.
  intros Hinv. destruct o as [text s t|text s t translation|]; simpl.
  - destruct (cache c !! _make_key hash text s t) as [x|] eqn:Hk.
    + rewrite bool_decide_eq_true_2 by by eexists.
      destruct (cache_get_hit c v text s t x Hinv Hk)
        as (c' & -> & _ & ? & ? & _). by exists c'.
    + rewrite bool_decide_eq_false_2 by by intros [? ?].
      rewrite cache_get_miss by done. by exists c.
  - destruct (cache_set_returns c v text s t translation Hinv)
      as (c' & -> & _ & ? & ?). by exists c'.
  - eexists. split; [done|]. split; [done|].
    destruct Hinv as (? & ? & _). unfold cache_inv, order_inv. simpl.
    rewrite map_size_empty. split_and!; [done|lia| |constructor|constructor].
    intros k. rewrite lookup_empty, elem_of_nil.
    split; [done|by intros [? ?]].
Qed.

Lemma cache_run_inv ops c v :
  cache_inv c v →
  ∃ c' v', cache_run hash ops c v = Some (c', v') ∧
           max_size c' = max_size c ∧ cache_inv c' v'.
Proof.
  revert c v. induction ops as [|o ops IH]; intros c v Hinv; simpl.
  - by exists c, v.
  - destruct (cache_step_inv o c v Hinv) as (c1 & -> & Hmax & Hinv1).
    destruct (IH _ _ Hinv1) as (c' & v' & -> & Hmax' & Hinv').
    exists c', v'. split_and!; [done|congruence|done].
Qed.

(** In a store of at most one entry the stored key is the only one. *)
Lemma lookup_size_1 (m : gmap pystr pystr) k1 k2 x :
  (size m ≤ 1)%nat → m !! k1 = Some x → k2 ≠ k1 → m !! k2 = None.
Proof.
  intros Hsize Hk1 Hne. destruct (m !! k2) as [y|] eqn:Hk2; [|done].
  assert (delete k1 m !! k2 = Some y) as Hd by by rewrite lookup_delete_ne.
  assert (is_Some (m !! k1)) as H1 by by eexists.
  assert (is_Some (delete k1 m !! k2)) as H2 by by eexists.
  apply map_size_delete_Some in H1, H2.
  pose proof (map_size_insert_None k2 y (delete k2 (delete k1 m))
                (lookup_delete_eq _ _)) as H3.
  rewrite insert_delete_id in H3 by done. lia.
Qed.

Lemma cache_run_snoc ops o c v :
  cache_run hash (ops ++ [o]) c v =
  match cache_run hash ops c v with
  | Some (c1, v1) => cache_run hash [o] c1 v1
  | None => None
  end.
Proof.
  revert c v. induction ops as [|o1 ops IH]; intros c v; [done|].
  simpl. destruct (cache_step hash o1 c) as [[[]|e] c1]; [apply IH|done].
Qed.

Lemma make_key_length text s t :
  length (_make_key hash text s t)
  = (length s + length (_make_key hash text [] t))%nat.
Proof. unfold _make_key. by rewrite !length_app. Qed.

(** A [get] that hits leaves its key at the end of the access order. *)
Lemma cache_get_hit_last c text s t value c' :
  cache_get hash text s t c = (Ret (Some value), c') →
  last (access_order c') = Some (_make_key hash text s t).
Proof.
  unfold cache_get. destruct (cache c !! _) as [x|]; [|done].
  destruct (list_remove _ _) as [l|]; [|done].
  intros [= _ <-]. simpl. apply last_snoc.
Qed.

(** Storing keys that are not stored fills a cache up to any size within
    its capacity. *)
Lemma cache_fills_up (max : Z) (n : nat) :
  1 ≤ max → Z.of_nat n ≤ max →
  ∃ ops c v,
    cache_run hash ops (TranslationCache_init max) no_uses = Some (c, v) ∧
    cache_inv c v ∧ max_size c = max ∧ size (cache c) = n ∧
    ∀ k, is_Some (cache c !! k) →
         (length k < n + length (_make_key hash [] [] []))%nat.
Proof.
  intros Hmax. induction n as [|n IH]; intros Hn.
  - exists [], (TranslationCache_init max), no_uses.
    split_and!; [done|by apply cache_inv_init|done|done|].
    intros k [x Hk]. simpl in Hk. by rewrite lookup_empty in Hk.
  - destruct IH as (ops & c & v & Hrun & Hinv & Hcap & Hsize & Hlen); [lia|].
    set (s := replicate n 0%N).
    assert (cache c !! _make_key hash [] s [] = None) as Hk.
    { destruct (cache c !! _make_key hash [] s []) as [x|] eqn:Hk; [|done].
      specialize (Hlen _ (mk_is_Some _ _ Hk)).
      rewrite make_key_length in Hlen. unfold s in Hlen.
      rewrite length_replicate in Hlen. lia. }
    destruct (cache_set_room c v [] s [] [] Hinv Hk)
      as (c' & Hset & Hc' & Hcap' & Hinv'); [lia|].
    exists (ops ++ [Put [] s [] []]), c', (touch (_make_key hash [] s []) v).
    split_and!; [|done|congruence| |].
    + rewrite cache_run_snoc, Hrun. simpl. rewrite Hset. simpl.
      rewrite bool_decide_eq_false_2; [done|]. rewrite Hk. by intros [? ?].
    + rewrite Hc', map_size_insert_None by done. lia.
    + intros k. rewrite Hc', lookup_insert_is_Some.
      intros [<-|[_ Hin]].
      * rewrite make_key_length. unfold s. rewrite length_replicate. lia.
      * specialize (Hlen _ Hin). lia.
Qed.

(** C5. A cache built with a maximum size of at least 1 and driven by any
    sequence of get/set/clear calls never raises and never holds more
    entries than the maximum, and its access order lists the stored keys,
    each once, the least recently used first. On such a cache every [set]
    returns and stores its value under its key; it leaves every other entry
    alone when the key is stored already or the cache is below capacity,
    and when the key is not stored and the cache is at capacity it evicts
    exactly one entry, the least recently used one (least recently returned
    by [get], or inserted if [get] never returned it). A [get] that hits
    returns the value, leaves the store as it is and makes its key the most
    recently used one, the last of the access order. Capacity is reached:
    some sequence of calls fills the cache to its maximum size. *)
Theorem translation_cache_bounded_lru (max : Z) :
  1 ≤ max →
  (∀ ops : list cache_op,
     ∃ c v,
       cache_run hash ops (TranslationCache_init max) no_uses = Some (c, v) ∧
       max_size c = max ∧
       Z.of_nat (size (cache c)) ≤ max ∧
       (∀ k, k ∈ access_order c ↔ is_Some (cache c !! k)) ∧
       StronglySorted lt (stamp v <$> access_order c) ∧
       (∀ text s t translation,
          let k := _make_key hash text s t in
          ∃ c',
            cache_set hash text s t translation c = (Ret (), c') ∧
            max_size c' = max ∧
            cache c' !! k = Some translation ∧
            (is_Some (cache c !! k) ∨ Z.of_nat (size (cache c)) < max →
             cache c' = <[k := translation]> (cache c)) ∧
            (cache c !! k = None → max ≤ Z.of_nat (size (cache c)) →
             ∃ victim,
               least_recently_used c v victim ∧
               cache c' = <[k := translation]> (delete victim (cache c)) ∧
               size (cache c') = size (cache c))) ∧
       (∀ text s t value,
          let k := _make_key hash text s t in
          cache c !! k = Some value →
          ∃ c',
            cache_get hash text s t c = (Ret (Some value), c') ∧
            cache c' = cache c ∧
            last (access_order c') = Some k ∧
            most_recently_used c' (observe hash (Get text s t) c v) k)) ∧
  (∃ ops c v,
     cache_run hash ops (TranslationCache_init max) no_uses = Some (c, v) ∧
     Z.of_nat (size (cache c)) = max).
Proof.
  intros Hmax. split.
  - intros ops.
    destruct (cache_run_inv ops _ _ (cache_inv_init max Hmax))
      as (c & v & Hrun & Hcap & Hinv). simpl in Hcap.
    exists c, v. pose proof Hinv as (_ & Hsize & Hmem & Hsorted & _).
    rewrite Hcap in Hsize.
    split_and!; [done|done|done|done|done| |].
    + intros text s t translation k.
      destruct (cache c !! k) as [x|] eqn:Hk.
      * destruct (cache_set_stored c v text s t translation Hinv)
          as (c' & Hset & Hc' & _ & Hcap' & _); [by eexists|].
        exists c'. fold k in Hc'.
        split_and!; [done|congruence| |done|done].
        by rewrite Hc', lookup_insert_eq.
      * destruct (decide (Z.of_nat (size (cache c)) = max_size c))
          as [Hfull|Hroom].
        -- destruct (cache_set_full c v text s t translation Hinv Hk Hfull)
             as (victim & c' & Hset & Hlru & Hc' & Hsz & Hcap' & _).
           exists c'. fold k in Hc'.
           split_and!; [done|congruence| | |].
           ++ by rewrite Hc', lookup_insert_eq.
           ++ intros [[? ?]|?]; [done|lia].
           ++ intros _ _. by exists victim.
        -- destruct (cache_set_room c v text s t translation Hinv Hk)
             as (c' & Hset & Hc' & Hcap' & _); [lia|].
           exists c'. fold k in Hc'.
           split_and!; [done|congruence| |done|].
           ++ by rewrite Hc', lookup_insert_eq.
           ++ intros _ ?. lia.
    + intros text s t value k Hk.
      destruct (cache_get_hit c v text s t value Hinv Hk)
        as (c' & Hget & ? & _ & _ & Hmru).
      exists c'. split_and!; [done|done|by eapply cache_get_hit_last|].
      unfold observe. fold k.
      by rewrite bool_decide_eq_true_2 by by eexists.
  - destruct (cache_fills_up max (Z.to_nat max) Hmax)
      as (ops & c & v & Hrun & _ & _ & Hsize & _); [lia|].
    exists ops, c, v. split; [done|lia].
Qed.

(** C6. On a cache of maximum size at least 1, after any sequence of
    calls, [set(k, v)] followed at once by [get(k)] returns [v]; and on a
    cache of maximum size 1, setting two distinct keys in succession evicts
    the first: [get] on the first key then returns absent (and leaves the
    cache as it is), while [get] on the second returns its value. *)
Theorem cache_set_then_get (max : Z) (ops ops1 : list cache_op)
    (text s t value text1 s1 t1 value1 text2 s2 t2 value2 : pystr) :
  1 ≤ max →
  _make_key hash text1 s1 t1 ≠ _make_key hash text2 s2 t2 →
  (∃ c v c1 c2,
     cache_run hash ops (TranslationCache_init max) no_uses = Some (c, v) ∧
     cache_set hash text s t value c = (Ret (), c1) ∧
     cache_get hash text s t c1 = (Ret (Some value), c2)) ∧
  (∃ c v c1 c2 c3,
     cache_run hash ops1 (TranslationCache_init 1) no_uses = Some (c, v) ∧
     cache_set hash text1 s1 t1 value1 c = (Ret (), c1) ∧
     cache_set hash text2 s2 t2 value2 c1 = (Ret (), c2) ∧
     cache_get hash text1 s1 t1 c2 = (Ret None, c2) ∧
     cache_get hash text2 s2 t2 c2 = (Ret (Some value2), c3)).
Proof.
  intros Hmax Hne. split.
  - destruct (cache_run_inv ops _ _ (cache_inv_init max Hmax))
      as (c & v & Hrun & _ & Hinv).
    destruct (cache_set_returns c v text s t value Hinv)
      as (c1 & Hset & Hk & _ & Hinv1).
    destruct (cache_get_hit c1 _ text s t value Hinv1 Hk) as (c2 & Hget & _).
    by exists c, v, c1, c2.
  - destruct (cache_run_inv ops1 _ _ (cache_inv_init 1 (Z.le_refl 1)))
      as (c & v & Hrun & Hcap & Hinv). simpl in Hcap.
    destruct (cache_set_returns c v text1 s1 t1 value1 Hinv)
      as (c1 & Hset1 & Hk1 & Hcap1 & Hinv1).
    pose proof Hinv1 as (_ & Hsize1 & _).
    rewrite Hcap1, Hcap in Hsize1.
    assert (cache c1 !! _make_key hash text2 s2 t2 = None) as Hk2.
    { eapply lookup_size_1; [|done|done]. lia. }
    destruct (cache_set_full c1 _ text2 s2 t2 value2 Hinv1 Hk2)
      as (victim & c2 & Hset2 & ([x Hv] & _) & Hc2 & _ & _ & Hinv2).
    { assert (size (cache c1) ≠ 0%nat); [|lia].
      intros H0%map_size_empty_inv. by rewrite H0, lookup_empty in Hk1. }
    assert (victim = _make_key hash text1 s1 t1) as ->.
    { destruct (decide (victim = _make_key hash text1 s1 t1)); [done|].
      rewrite (lookup_size_1 (cache c1) _ victim value1) in Hv by (done || lia).
      done. }
    assert (cache c2 !! _make_key hash text2 s2 t2 = Some value2) as Hk2'
      by by rewrite Hc2, lookup_insert_eq.
    destruct (cache_get_hit c2 _ text2 s2 t2 value2 Hinv2 Hk2')
      as (c3 & Hget2 & _).
    exists c, v, c1, c2, c3. split_and!; try done.
    apply cache_get_miss. rewrite Hc2, lookup_insert_ne by done.
    apply lookup_delete_eq.
Qed.

End CacheProofs.

(** ** [Translator.translate_text] *)

(** C10. On a text that is empty or made of white space only,
    [translate_text] returns the empty string and makes no call at all: no
    request to the back end, no reading of the clock, the translator
    unchanged. On a text that is not blank, when the back end raises,
    it returns absent after one request to the back end. The two results
    differ, so a caller can tell nothing-to-translate from failure. *)
Theorem translate_text_blank_vs_failure (w : World)
    (blank text source_lang target_lang : pystr) (context : option pystr)
    (t : Translator) (c : Calls) (e : exn) :
  forallb isspace blank = true →
  truthy (strip text) = true →
  translate_backend w (engine t) (n_translate c)
    text source_lang target_lang context = Raise e →
  translate_text w blank source_lang target_lang context t c = (Some [], t, c) ∧
  (translate_text w text source_lang target_lang context t c).1.1 = None ∧
  n_translate (translate_text w text source_lang target_lang context t c).2
    = S (n_translate c) ∧
  (translate_text w blank source_lang target_lang context t c).1.1
    ≠ (translate_text w text source_lang target_lang context t c).1.1.
Proof.
  intros Hblank Htext Hraise.
  apply strip_nil_iff in Hblank.
  assert (translate_text w blank source_lang target_lang context t c
          = (Some [], t, c)) as Hb.
  { unfold translate_text. by rewrite Hblank. }
  assert ((translate_text w text source_lang target_lang context t c).1.1 = None)
    as Hf.
  { unfold translate_text, _translate_with. rewrite Htext. simpl.
    by rewrite Hraise. }
  split_and!; [done|done| |].
  - unfold translate_text. by rewrite Htext.
  - by rewrite Hb, Hf.
Qed.

Lemma translate_text_blank_vs_failure_witness :
  let w := example_world ticking_clock (λ _, Ret (u "hello"))
             (λ _, Raise (ExternalError 503)) in
  let t := Translator_init OPENAI in
  translate_text w (u "  ") (u "en") (u "ja") None t no_calls
    = (Some [], t, no_calls) ∧
  (translate_text w (u "hello") (u "en") (u "ja") None t no_calls).1.1 = None.
Proof.
  intros w t.
  destruct (translate_text_blank_vs_failure w (u "  ") (u "hello")
              (u "en") (u "ja") None t no_calls (ExternalError 503))
    as (H1 & H2 & _); [reflexivity|reflexivity|reflexivity|].
  split; [exact H1|exact H2].
Defined.

(** ** The state machine *)

Lemma state_update_state s lt : state (_update_state s lt) = s.
Proof.
  unfold _update_state. destruct (decide (state lt = s)); [done|].
  unfold notify. by destruct (state_callback _).
Qed.

Lemma state_handle_error m lt : state (_handle_error m lt) = ERROR.
Proof.
  unfold _handle_error, notify.
  destruct (error_callback _); simpl; apply state_update_state.
Qed.

Lemma start_translation_rejected w url lt :
  state lt ≠ STOPPED → start_translation w url lt = (false, lt).
Proof.
  intros H. unfold start_translation. by rewrite bool_decide_eq_false_2.
Qed.

Lemma start_translation_outcome w url lt :
  state lt = STOPPED →
  (start_translation w url lt).1 = true ∧
    state (start_translation w url lt).2 = RUNNING ∨
  (start_translation w url lt).1 = false ∧
    state (start_translation w url lt).2 = ERROR.
Proof.
  intros H. unfold start_translation. rewrite bool_decide_eq_true_2 by done.
  simpl. unfold is_live_stream, get_stream_info. simpl.
  destruct (extract_info w _ url) as [info|e]; simpl;
    [|right; split; [done|apply state_handle_error]].
  destruct (si_is_live info); simpl;
    [|right; split; [done|apply state_handle_error]].
  destruct (extract_info w _ url) as [info'|e]; simpl;
    [|right; split; [done|apply state_handle_error]].
  left. split; [done|apply state_update_state].
Qed.

(** C4. [start_translation] is rejected unless the state is Stopped: in any
    other state it returns failure and changes nothing; from Stopped it is
    let in and ends Running (success) or in Error (failure). Hence a second
    call right after a first one, with no stop in between, returns failure
    and leaves the coordinator, its state included, exactly as the first
    call left it. *)
Theorem start_translation_twice (w : World) (url url2 : pystr)
    (lt : LiveTranslator) :
  (state lt ≠ STOPPED → start_translation w url lt = (false, lt)) ∧
  (state lt = STOPPED →
     (start_translation w url lt).1 = true ∧
       state (start_translation w url lt).2 = RUNNING ∨
     (start_translation w url lt).1 = false ∧
       state (start_translation w url lt).2 = ERROR) ∧
  start_translation w url2 (start_translation w url lt).2
    = (false, (start_translation w url lt).2).
Proof.
  split_and!; [apply start_translation_rejected
              |apply start_translation_outcome|].
  apply start_translation_rejected.
  destruct (decide (state lt = STOPPED)) as [Hs|Hs].
  - destruct (start_translation_outcome w url lt Hs) as [[_ ->]|[_ ->]]; done.
  - by rewrite start_translation_rejected.
Qed.

Lemma start_translation_twice_witness :
  let w := example_world ticking_clock (λ _, Ret (u "hello"))
             (λ _, Ret (u "konnichiwa")) in
  let lt := example_translator 500 STOPPED [] in
  let running := example_translator 500 RUNNING [] in
  start_translation w (u "https://youtu.be/live") running = (false, running) ∧
  ((start_translation w (u "https://youtu.be/live") lt).1 = true ∧
     state (start_translation w (u "https://youtu.be/live") lt).2 = RUNNING ∨
   (start_translation w (u "https://youtu.be/live") lt).1 = false ∧
     state (start_translation w (u "https://youtu.be/live") lt).2 = ERROR).
Proof.
  intros w lt running. split.
  - destruct (start_translation_twice w (u "https://youtu.be/live") [] running)
      as (Hrejected & _ & _).
    apply Hrejected. discriminate.
  - destruct (start_translation_twice w (u "https://youtu.be/live") [] lt)
      as (_ & Hlet_in & _).
    apply Hlet_in. reflexivity.
Defined.

Lemma stop_translation_events lt :
  state lt = STOPPED →
  events (stop_translation lt) =
    events lt ++
    match state_callback lt with
    | Some _ => [EvState STOPPING; EvState STOPPED]
    | None => []
    end.
Proof.
  intros H. unfold stop_translation, _update_state. simpl. rewrite H. simpl.
  unfold notify. simpl.
  destruct (state_callback lt) eqn:Hcb; simpl; rewrite ?Hcb; simpl.
  - by rewrite <- app_assoc.
  - by rewrite app_nil_r.
Qed.

(** C2, as the code has it. Calling [stop_translation] while the state is
    Stopped leaves the state Stopped, counts no error and calls no error
    observer; but it is not a no-op: the coordinator passes through Stopping,
    so a registered state observer is called twice, with Stopping and then
    with Stopped, the extractor is told to stop and the queue is emptied. *)
Theorem stop_translation_when_stopped (lt : LiveTranslator) :
  state lt = STOPPED →
  state (stop_translation lt) = STOPPED ∧
  stats (stop_translation lt) = stats lt ∧
  events (stop_translation lt) =
    events lt ++
    match state_callback lt with
    | Some _ => [EvState STOPPING; EvState STOPPED]
    | None => []
    end ∧
  audio_queue (stop_translation lt) = [] ∧
  is_streaming (audio_extractor (stop_translation lt)) = false.
Proof.
  intros H. split_and!.
  - apply state_update_state.
  - unfold stop_translation, _update_state, notify. simpl. rewrite H. simpl.
    by destruct (state_callback lt) eqn:Hcb; simpl; rewrite ?Hcb.
  - by apply stop_translation_events.
  - unfold stop_translation, _update_state, notify. simpl. rewrite H. simpl.
    by destruct (state_callback lt) eqn:Hcb; simpl; rewrite ?Hcb.
  - unfold stop_translation, _update_state, notify. simpl. rewrite H. simpl.
    by destruct (state_callback lt) eqn:Hcb; simpl; rewrite ?Hcb.
Qed.

Lemma stop_translation_when_stopped_witness :
  let lt := example_translator 500 STOPPED [] in
  state (stop_translation lt) = STOPPED ∧
  events (stop_translation lt) = [EvState STOPPING; EvState STOPPED].
Proof.
  intros lt.
  destruct (stop_translation_when_stopped lt) as (H1 & _ & H3 & _);
    [reflexivity|].
  split; [exact H1|exact H3].
Defined.

(** C2 as stated fails: on a Stopped coordinator with a state observer
    registered, [stop_translation] fires state-change events. *)
Lemma stop_translation_when_stopped_fires_events :
  let lt := example_translator 500 STOPPED [] in
  ¬ (state lt = STOPPED →
     state (stop_translation lt) = STOPPED ∧
     events (stop_translation lt) = events lt).
Proof.
  intros lt Hclaim. destruct (Hclaim eq_refl) as [_ Hev]. discriminate Hev.
Qed.

(** ** [LiveTranslator.get_stats] *)

Lemma py_truediv_nonzero a b : ¬ (b == 0)%Q → py_truediv a b = Ret (a / b)%Q.
Proof.
  intros H. unfold py_truediv. destruct (Qeq_bool b 0) eqn:Hb; [|done].
  by apply Qeq_bool_eq in Hb.
Qed.

Lemma inject_Z_nonzero z : 0 < z → ¬ (inject_Z z == 0)%Q.
Proof. intros Hz. unfold Qeq. simpl. lia. Qed.

(** The report [get_stats] returns when the speed ratio can be computed. *)
Lemma get_stats_report (lt : LiveTranslator) :
  (0 < segments_processed (stats lt) →
   ¬ (total_processing_time (stats lt) == 0)%Q) →
  ∃ r,
    get_stats lt = Ret r ∧
    counters r = stats lt ∧
    avg_processing_time r =
      (if 0 <? segments_processed (stats lt)
       then total_processing_time (stats lt)
            / inject_Z (segments_processed (stats lt))
       else 0)%Q ∧
    cache_hit_rate r =
      (if 0 <? cache_hits (stats lt) + cache_misses (stats lt)
       then inject_Z (cache_hits (stats lt))
            / inject_Z (cache_hits (stats lt) + cache_misses (stats lt))
       else 0)%Q.
Proof.
  intros Hpos. unfold get_stats.
  destruct (0 <? segments_processed (stats lt)) eqn:Hseg.
  - apply Z.ltb_lt in Hseg.
    rewrite (py_truediv_nonzero _ _ (inject_Z_nonzero _ Hseg)).
    rewrite (py_truediv_nonzero _ _ (Hpos Hseg)).
    destruct (0 <? cache_hits (stats lt) + cache_misses (stats lt)) eqn:Hreq.
    + apply Z.ltb_lt in Hreq.
      rewrite (py_truediv_nonzero _ _ (inject_Z_nonzero _ Hreq)).
      by eexists.
    + by eexists.
  - destruct (0 <? cache_hits (stats lt) + cache_misses (stats lt)) eqn:Hreq.
    + apply Z.ltb_lt in Hreq.
      rewrite (py_truediv_nonzero _ _ (inject_Z_nonzero _ Hreq)).
      by eexists.
    + by eexists.
Qed.

(** C8. [get_stats] computes its derived values from the counters when it
    is called: the average processing time is [total_processing_time /
    segments_processed], 0 when no segment was processed, and the cache hit
    rate is [cache_hits / (cache_hits + cache_misses)], 0 when that sum is 0.
    That is what it returns unless segments were processed in a total time
    of exactly 0: there the third derived value, the speed ratio
    [total_audio_time / total_processing_time], is divided without a guard,
    and [get_stats] raises [ZeroDivisionError] instead of returning the
    average [0 / segments_processed = 0]. *)
Theorem get_stats_derived_values (lt : LiveTranslator) :
  (0 < segments_processed (stats lt) →
   (total_processing_time (stats lt) == 0)%Q →
   get_stats lt = Raise ZeroDivisionError) ∧
  ((0 < segments_processed (stats lt) →
    ¬ (total_processing_time (stats lt) == 0)%Q) →
   ∃ r,
     get_stats lt = Ret r ∧
     counters r = stats lt ∧
     avg_processing_time r =
       (if 0 <? segments_processed (stats lt)
        then total_processing_time (stats lt)
             / inject_Z (segments_processed (stats lt))
        else 0)%Q ∧
     cache_hit_rate r =
       (if 0 <? cache_hits (stats lt) + cache_misses (stats lt)
        then inject_Z (cache_hits (stats lt))
             / inject_Z (cache_hits (stats lt) + cache_misses (stats lt))
        else 0)%Q).
Proof.
  split; [|apply get_stats_report].
  intros Hseg Hzero. unfold get_stats.
  rewrite (proj2 (Z.ltb_lt _ _) Hseg).
  rewrite (py_truediv_nonzero _ _ (inject_Z_nonzero _ Hseg)).
  unfold py_truediv at 1.
  by rewrite (proj2 (Qeq_bool_iff _ _) Hzero).
Qed.

(** ** The worker *)

Lemma get_translation_confidence_absent text :
  get_translation_confidence text [] = 0%Q.
Proof.
  unfold get_translation_confidence.
  by destruct (truthy (strip text)).
Qed.

(** One turn on a queued segment, by what the recognizer answers. *)
Lemma worker_body_segment w lt audio rest :
  audio_queue lt = Some audio :: rest →
  worker_body w lt =
    let lt1 := with_calls (tick_whisper (tick_time (calls lt)))
                 (with_audio_queue rest lt) in
    match whisper w (use_api (speech_recognizer lt)) (n_whisper (calls lt))
            audio (source_language lt) with
    | Ret raw =>
        if truthy (strip raw) then
          match process_transcription w (time_time w (n_time (calls lt)))
                  (strip raw) lt1 with
          | (Ret _, lt2) => (Ret Continue, lt2)
          | (Raise e, lt2) => (Raise e, lt2)
          end
        else (Ret Continue, lt1)
    | Raise _ => (Ret Continue, lt1)
    end.
Proof.
  intros Hq. unfold worker_body, mbind, M_bind, mret, M_ret, gets, modify, now,
    recognize, transcribe_audio_data. rewrite Hq. simpl.
  destruct (whisper w _ _ audio _) as [raw|e]; simpl; [|done].
  rewrite strip_idemp, andb_diag.
  destruct (truthy (strip raw)); simpl; [|done].
  by destruct (process_transcription w _ _ _) as [[[]|e] lt2].
Qed.

Lemma translate_text_n_whisper w text s t context tr c :
  n_whisper (translate_text w text s t context tr c).2 = n_whisper c.
Proof.
  unfold translate_text. by destruct (negb (truthy (strip text))).
Qed.

(** The processing of a recognized text when the cache misses and the
    translation fails. *)
Lemma process_transcription_failed_translation w lt start text e cb :
  transcription_callback lt = Some cb →
  truthy (strip text) = true →
  cache (translation_cache lt)
    !! _make_key (str_hash w) text (source_language lt) (target_language lt)
    = None →
  translate_backend w (engine (translator lt)) (n_translate (calls lt))
    text (source_language lt) (target_language lt) None = Raise e →
  ∃ lt',
    process_transcription w start text lt = (Ret (), lt') ∧
    events lt' =
      events lt ++
      [EvTranscription
         {| timestamp := time_time w (S (S (n_time (calls lt))));
            original_text := text; translated_text := None; confidence := 0;
            language := source_language lt |}] ∧
    translation_cache lt' = translation_cache lt ∧
    stats lt' =
      count_segment (time_time w (S (S (S (n_time (calls lt))))) - start)
        (segment_duration lt) (count_cache_miss (stats lt)) ∧
    state lt' = state lt ∧
    audio_queue lt' = audio_queue lt.
Proof.
  intros Hcb Htext Hmiss Hraise.
  unfold process_transcription, mbind, M_bind, mret, M_ret, gets, modify, now,
    on_cache, translate. simpl.
  rewrite cache_get_miss by done. simpl.
  unfold translate_text, _translate_with. rewrite Htext. simpl.
  rewrite Hraise. simpl. rewrite Hcb. simpl.
  eexists. split; [done|]. simpl.
  by rewrite get_translation_confidence_absent.
Qed.

(** C7. When the recognition of the segment at the head of the queue
    succeeds, the cache has no translation of the recognized text and the
    translation back end fails, the turn of the worker still hands the
    transcription observer a result whose original text is the recognized
    text and whose translated text is absent; the cache is left as it was,
    the cache-miss counter goes up by one (the hit counter and the error
    counter do not move) and the segment counts as processed. *)
Theorem failed_translation_still_emits (w : World) (lt : LiveTranslator)
    (audio : list Byte.byte) (rest : list (option (list Byte.byte)))
    (raw : pystr) (e : exn) (cb : TranscriptionResult → res unit) :
  audio_queue lt = Some audio :: rest →
  transcription_callback lt = Some cb →
  whisper w (use_api (speech_recognizer lt)) (n_whisper (calls lt))
    audio (source_language lt) = Ret raw →
  truthy (strip raw) = true →
  cache (translation_cache lt)
    !! _make_key (str_hash w) (strip raw)
         (source_language lt) (target_language lt) = None →
  translate_backend w (engine (translator lt)) (n_translate (calls lt))
    (strip raw) (source_language lt) (target_language lt) None = Raise e →
  ∃ lt' timestamp,
    worker_turn w lt = (Continue, lt') ∧
    events lt' =
      events lt ++
      [EvTranscription
         {| timestamp := timestamp; original_text := strip raw;
            translated_text := None; confidence := 0;
            language := source_language lt |}] ∧
    translation_cache lt' = translation_cache lt ∧
    cache_misses (stats lt') = cache_misses (stats lt) + 1 ∧
    cache_hits (stats lt') = cache_hits (stats lt) ∧
    errors (stats lt') = errors (stats lt) ∧
    segments_processed (stats lt') = segments_processed (stats lt) + 1 ∧
    state lt' = state lt ∧
    audio_queue lt' = rest.
Proof.
  intros Hq Hcb Hheard Htext Hmiss Hraise.
  unfold worker_turn. rewrite (worker_body_segment w lt audio rest Hq).
  simpl. rewrite Hheard, Htext.
  set (lt1 := with_calls _ _).
  destruct (process_transcription_failed_translation w lt1
              (time_time w (n_time (calls lt))) (strip raw) e cb)
    as (lt' & -> & Hev & Hcache & Hstats & Hstate & Hqueue);
    [done|by rewrite strip_idemp|done|done|].
  exists lt'. eexists. split; [done|]. rewrite Hev, Hcache, Hstats, Hstate, Hqueue.
  by split_and!.
Qed.

Lemma failed_translation_still_emits_witness :
  let w := example_world ticking_clock (λ _, Ret (u " hello "))
             (λ _, Raise (ExternalError 503)) in
  let lt := example_translator 500 RUNNING [segment_1] in
  ∃ lt' timestamp,
    worker_turn w lt = (Continue, lt') ∧
    events lt' =
      [EvTranscription
         {| timestamp := timestamp; original_text := u "hello";
            translated_text := None; confidence := 0;
            language := u "en" |}] ∧
    cache (translation_cache lt') = ∅ ∧
    cache_misses (stats lt') = 1.
Proof.
  intros w lt.
  destruct (failed_translation_still_emits w lt segment_1 [] (u " hello ")
              (ExternalError 503) (λ _, Ret ()))
    as (lt' & timestamp & Hturn & Hev & Hcache & Hmiss & _);
    [reflexivity|reflexivity|reflexivity|reflexivity|reflexivity|reflexivity|].
  exists lt', timestamp. split; [exact Hturn|]. split; [exact Hev|].
  split; [rewrite Hcache; reflexivity|rewrite Hmiss; reflexivity].
Defined.

(** The processing of a recognized text on a well-formed cache: it returns,
    and hands the observer one result for that text. *)
Lemma process_transcription_returns w lt start text v cb :
  transcription_callback lt = Some cb →
  cache_inv (translation_cache lt) v →
  ∃ lt' r v',
    process_transcription w start text lt = (Ret (), lt') ∧
    events lt' = events lt ++ [EvTranscription r] ∧
    original_text r = text ∧
    cache_inv (translation_cache lt') v' ∧
    segments_processed (stats lt') = segments_processed (stats lt) + 1 ∧
    audio_queue lt' = audio_queue lt ∧
    n_whisper (calls lt') = n_whisper (calls lt) ∧
    turn_frame lt lt'.
Proof.
  intros Hcb Hinv.
  unfold process_transcription, mbind, M_bind, mret, M_ret, gets, modify, now,
    on_cache, translate, turn_frame. simpl.
  set (k := _make_key (str_hash w) text (source_language lt) (target_language lt)).
  assert (∃ cached c1 v1,
            cache_get (str_hash w) text (source_language lt)
              (target_language lt) (translation_cache lt) = (Ret cached, c1) ∧
            cache_inv c1 v1) as (cached & c1 & v1 & -> & Hinv1).
  { destruct (cache (translation_cache lt) !! k) as [x|] eqn:Hk.
    - destruct (cache_get_hit _ _ v text _ _ x Hinv Hk)
        as (c1 & ? & _ & _ & ? & _). by exists (Some x), c1, (touch k v).
    - rewrite cache_get_miss by done. by exists None, (translation_cache lt), v. }
  simpl. destruct (truthy_opt cached); simpl.
  - rewrite Hcb. simpl. eexists _, _, v1. by split_and!.
  - pose proof (translate_text_n_whisper w text (source_language lt)
                  (target_language lt) None (translator lt) (calls lt)) as Hn.
    destruct (translate_text w text _ _ None _ _) as [[translation t] c].
    simpl in Hn |- *.
    destruct (truthy_opt translation); simpl.
    + destruct (cache_set_returns (str_hash w) c1 v1 text (source_language lt)
                  (target_language lt) (or_empty translation) Hinv1)
        as (c2 & -> & _ & _ & Hinv2).
      simpl. rewrite Hcb. simpl. eexists _, _, _. by split_and!.
    + rewrite Hcb. simpl. eexists _, _, v1. by split_and!.
Qed.

(** A turn on a segment the recognizer transcribes to a text that is not
    blank. *)
Lemma worker_turn_recognized w lt audio rest raw v cb :
  audio_queue lt = Some audio :: rest →
  transcription_callback lt = Some cb →
  cache_inv (translation_cache lt) v →
  whisper w (use_api (speech_recognizer lt)) (n_whisper (calls lt))
    audio (source_language lt) = Ret raw →
  truthy (strip raw) = true →
  ∃ lt' r v',
    worker_turn w lt = (Continue, lt') ∧
    events lt' = events lt ++ [EvTranscription r] ∧
    original_text r = strip raw ∧
    cache_inv (translation_cache lt') v' ∧
    segments_processed (stats lt') = segments_processed (stats lt) + 1 ∧
    audio_queue lt' = rest ∧
    n_whisper (calls lt') = S (n_whisper (calls lt)) ∧
    turn_frame lt lt'.
Proof.
  intros Hq Hcb Hinv Hheard Htext.
  unfold worker_turn. rewrite (worker_body_segment w lt audio rest Hq).
  simpl. rewrite Hheard, Htext.
  set (lt1 := with_calls _ _).
  destruct (process_transcription_returns w lt1
              (time_time w (n_time (calls lt))) (strip raw) v cb)
    as (lt' & r & v' & -> & Hev & Hr & Hinv' & Hseg & Hqueue & Hn & Hframe);
    [done|done|].
  exists lt', r, v'. by split_and!.
Qed.

(** A turn on a segment the recognizer fails on: the segment is dropped, no
    observer is called and no counter moves. *)
Lemma worker_turn_unrecognized w lt audio rest e :
  audio_queue lt = Some audio :: rest →
  whisper w (use_api (speech_recognizer lt)) (n_whisper (calls lt))
    audio (source_language lt) = Raise e →
  ∃ lt',
    worker_turn w lt = (Continue, lt') ∧
    events lt' = events lt ∧
    stats lt' = stats lt ∧
    translation_cache lt' = translation_cache lt ∧
    audio_queue lt' = rest ∧
    n_whisper (calls lt') = S (n_whisper (calls lt)) ∧
    turn_frame lt lt'.
Proof.
  intros Hq Hheard.
  unfold worker_turn. rewrite (worker_body_segment w lt audio rest Hq).
  simpl. rewrite Hheard. eexists. by split_and!.
Qed.

(** With nothing queued the worker keeps turning and changes nothing. *)
Lemma worker_idle w lt turns :
  worker_guard lt = true → audio_queue lt = [] →
  _audio_processing_worker w turns lt = (Looping, lt).
Proof.
  intros Hg Hq. induction turns as [|n IH]; simpl; rewrite Hg; [done|].
  unfold worker_turn, worker_body, mbind, M_bind, mret, M_ret, gets.
  by rewrite Hq.
Qed.

Lemma worker_guard_frame lt lt' :
  turn_frame lt lt' → worker_guard lt' = worker_guard lt.
Proof. intros (Hs & _). unfold worker_guard. by rewrite Hs. Qed.

Lemma worker_unroll w n lt lt' :
  worker_guard lt = true → worker_turn w lt = (Continue, lt') →
  _audio_processing_worker w (S n) lt = _audio_processing_worker w n lt'.
Proof. intros Hg Ht. simpl. by rewrite Hg, Ht. Qed.

(** C3, as the code has it. With three segments queued, the recognition of
    the second failing and that of the first and the third giving texts that
    are not blank, the worker (on a well-formed cache, with a transcription
    observer registered) hands the observer exactly two results, for the
    first and for the third segment in that order, and goes on waiting for
    segments; the recognizer swallows its own failure and the worker drops
    the segment, so the error counter does not move. *)
Theorem three_segments_middle_unrecognized (w : World) (lt : LiveTranslator)
    (a1 a2 a3 : list Byte.byte) (raw1 raw3 : pystr) (e : exn)
    (cb : TranscriptionResult → res unit) (v : recency) (turns : nat) :
  let heard := whisper w (use_api (speech_recognizer lt)) in
  let n := n_whisper (calls lt) in
  worker_guard lt = true →
  audio_queue lt = [Some a1; Some a2; Some a3] →
  transcription_callback lt = Some cb →
  cache_inv (translation_cache lt) v →
  heard n a1 (source_language lt) = Ret raw1 → truthy (strip raw1) = true →
  heard (S n) a2 (source_language lt) = Raise e →
  heard (S (S n)) a3 (source_language lt) = Ret raw3 →
  truthy (strip raw3) = true →
  (3 ≤ turns)%nat →
  ∃ lt' r1 r3,
    _audio_processing_worker w turns lt = (Looping, lt') ∧
    events lt' = events lt ++ [EvTranscription r1; EvTranscription r3] ∧
    original_text r1 = strip raw1 ∧
    original_text r3 = strip raw3 ∧
    errors (stats lt') = errors (stats lt) ∧
    segments_processed (stats lt') = segments_processed (stats lt) + 2 ∧
    state lt' = state lt ∧
    audio_queue lt' = [].
Proof.
  intros heard n Hg Hq Hcb Hinv H1 Ht1 H2 H3 Ht3 Hturns.
  destruct turns as [|[|[|turns]]]; [lia|lia|lia|]. clear Hturns.
  destruct (worker_turn_recognized w lt a1 _ raw1 v cb Hq Hcb Hinv H1 Ht1)
    as (lt1 & r1 & v1 & Hturn1 & Hev1 & Hr1 & Hinv1 & Hseg1 & Hq1 & Hn1 & Hf1).
  rewrite (worker_unroll _ _ _ _ Hg Hturn1).
  pose proof (worker_guard_frame _ _ Hf1) as Hg1. rewrite Hg in Hg1.
  pose proof Hf1 as (Hs1 & He1 & Hcb1 & Hsr1 & Hsl1).
  destruct (worker_turn_unrecognized w lt1 a2 _ e Hq1)
    as (lt2 & Hturn2 & Hev2 & Hst2 & Hc2 & Hq2 & Hn2 & Hf2).
  { rewrite Hsr1, Hn1, Hsl1. exact H2. }
  rewrite (worker_unroll _ _ _ _ Hg1 Hturn2).
  pose proof (worker_guard_frame _ _ Hf2) as Hg2. rewrite Hg1 in Hg2.
  pose proof Hf2 as (Hs2 & He2 & Hcb2 & Hsr2 & Hsl2).
  destruct (worker_turn_recognized w lt2 a3 _ raw3 v1 cb Hq2)
    as (lt3 & r3 & v3 & Hturn3 & Hev3 & Hr3 & Hinv3 & Hseg3 & Hq3 & Hn3 & Hf3).
  { by rewrite Hcb2, Hcb1. }
  { by rewrite Hc2. }
  { rewrite Hsr2, Hsr1, Hn2, Hn1, Hsl2, Hsl1. exact H3. }
  { done. }
  rewrite (worker_unroll _ _ _ _ Hg2 Hturn3).
  pose proof (worker_guard_frame _ _ Hf3) as Hg3. rewrite Hg2 in Hg3.
  pose proof Hf3 as (Hs3 & He3 & _).
  rewrite (worker_idle w lt3 turns Hg3 Hq3).
  exists lt3, r1, r3. split_and!; try done.
  - by rewrite Hev3, Hev2, Hev1, <- app_assoc.
  - by rewrite He3, He2, He1.
  - rewrite Hseg3, Hst2, Hseg1. lia.
  - by rewrite Hs3, Hs2, Hs1.
Qed.

Lemma three_segments_middle_unrecognized_witness :
  let w := example_world ticking_clock
             (λ n, match n with
                   | 0%nat => Ret (u "hello")
                   | 1%nat => Raise (ExternalError 500)
                   | _ => Ret (u "goodbye")
                   end)
             (λ _, Ret (u "konnichiwa")) in
  let lt := example_translator 500 RUNNING [segment_1; segment_2; segment_3] in
  ∃ lt' r1 r3,
    _audio_processing_worker w 3 lt = (Looping, lt') ∧
    events lt' = [EvTranscription r1; EvTranscription r3] ∧
    original_text r1 = u "hello" ∧
    original_text r3 = u "goodbye" ∧
    errors (stats lt') = 0.
Proof.
  intros w lt.
  destruct (three_segments_middle_unrecognized w lt segment_1 segment_2
              segment_3 (u "hello") (u "goodbye") (ExternalError 500)
              (λ _, Ret ()) no_uses 3)
    as (lt' & r1 & r3 & Hrun & Hev & Hr1 & Hr3 & Herr & _);
    [reflexivity|reflexivity|reflexivity|apply cache_inv_init; lia
    |reflexivity|reflexivity|reflexivity|reflexivity|reflexivity|lia|].
  exists lt', r1, r3.
  split; [exact Hrun|]. split; [exact Hev|]. split; [exact Hr1|].
  split; [exact Hr3|exact Herr].
Defined.

(** C3 as stated fails: with the second of three recognitions failing, two
    results are handed out but the error counter stays where it was. *)
Lemma three_segments_error_count_unchanged :
  let w := example_world ticking_clock
             (λ n, match n with
                   | 0%nat => Ret (u "hello")
                   | 1%nat => Raise (ExternalError 500)
                   | _ => Ret (u "goodbye")
                   end)
             (λ _, Ret (u "konnichiwa")) in
  let lt := example_translator 500 RUNNING [segment_1; segment_2; segment_3] in
  let lt' := (_audio_processing_worker w 3 lt).2 in
  ¬ (length (events lt') = 2%nat ∧ errors (stats lt') = errors (stats lt) + 1).
Proof.
  intros w lt lt' [_ Herr]. vm_compute in Herr. discriminate Herr.
Qed.

(** C1, where the code departs from it. An exception raised in the body of
    a turn is caught at the worker boundary, counted and reported to the
    error observer; but handling it moves the coordinator to Error, the guard
    of the loop then fails, and the worker exits with the rest of the queue
    unprocessed. *)
Theorem worker_exits_after_error (w : World) (lt lt1 : LiveTranslator)
    (e : exn) (turns : nat) :
  worker_guard lt = true →
  worker_body w lt = (Raise e, lt1) →
  let lt2 := _handle_error (AudioProcessingError e) lt1 in
  _audio_processing_worker w (S turns) lt = (Exited, lt2) ∧
  state lt2 = ERROR ∧
  errors (stats lt2) = errors (stats lt1) + 1 ∧
  audio_queue lt2 = audio_queue lt1 ∧
  (is_Some (error_callback lt1) →
   last (events lt2) = Some (EvError (AudioProcessingError e))).
Proof.
  intros Hg Hbody lt2.
  assert (state lt2 = ERROR) as Hstate by apply state_handle_error.
  split_and!; [|done| | |].
  - assert (worker_turn w lt = (Continue, lt2)) as Hturn
      by (unfold worker_turn; by rewrite Hbody).
    rewrite (worker_unroll _ _ _ _ Hg Hturn).
    assert (worker_guard lt2 = false) as Hg2.
    { unfold worker_guard. rewrite Hstate.
      apply bool_decide_eq_false_2. by intros [|]. }
    destruct turns; simpl; by rewrite Hg2.
  - unfold lt2, _handle_error, _update_state, notify. simpl.
    destruct (decide (state lt1 = ERROR)); simpl;
      repeat (case_match; simpl); done.
  - unfold lt2, _handle_error, _update_state, notify. simpl.
    destruct (decide (state lt1 = ERROR)); simpl;
      repeat (case_match; simpl); done.
  - intros [cb Hcb]. unfold lt2, _handle_error, _update_state, notify. simpl.
    destruct (decide (state lt1 = ERROR)); simpl; rewrite ?Hcb; simpl.
    + apply last_snoc.
    + destruct (state_callback lt1); simpl; rewrite Hcb; simpl; apply last_snoc.
Qed.

Lemma worker_exits_after_error_witness :
  let w := example_world ticking_clock (λ _, Ret (u "hello"))
             (λ _, Ret (u "konnichiwa")) in
  let lt := example_translator 0 RUNNING [segment_1; segment_2] in
  ∃ lt2,
    _audio_processing_worker w 5 lt = (Exited, lt2) ∧
    state lt2 = ERROR ∧
    audio_queue lt2 = [Some segment_2] ∧
    events lt2 = [EvState ERROR; EvError (AudioProcessingError IndexError)].
Proof.
  intros w lt.
  destruct (worker_exits_after_error w lt (worker_body w lt).2 IndexError 4)
    as (Hrun & Hstate & _); [reflexivity|reflexivity|].
  eexists. split; [exact Hrun|]. split; [exact Hstate|].
  split; reflexivity.
Defined.

(** ** The examples of the specification *)

(** The worker processes one segment between equal readings of the clock,
    and [get_stats] raises; it processes two segments in 2 and in 4 seconds
    with segment duration 10, and the average processing time reads 3 and
    the total audio time 20. *)
Lemma get_stats_derived_values_witness :
  (segments_processed (stats after_instant_segment) = 1 ∧
   (total_processing_time (stats after_instant_segment) == 0)%Q ∧
   get_stats after_instant_segment = Raise ZeroDivisionError) ∧
  ∃ r,
    get_stats after_two_segments = Ret r ∧
    segments_processed (counters r) = 2 ∧
    (total_processing_time (counters r) == 6)%Q ∧
    (avg_processing_time r == 3)%Q ∧
    (total_audio_time (counters r) == 20)%Q ∧
    (cache_hit_rate r == 0)%Q.
Proof.
  split.
  - split; [reflexivity|]. split; [reflexivity|].
    apply (proj1 (get_stats_derived_values after_instant_segment));
      reflexivity.
  - destruct (proj2 (get_stats_derived_values after_two_segments))
      as (r & Hr & Hc & Havg & Hrate).
    { intros _. vm_compute. discriminate. }
    exists r. rewrite Havg, Hrate, Hc. split; [exact Hr|].
    split; [reflexivity|]. split; [reflexivity|]. split; [reflexivity|].
    split; reflexivity.
Defined.

(** The snapshot on which [get_stats] raises instead: one segment processed
    between two equal readings of the clock. *)
Example get_stats_zero_processing_time :
  get_stats
    (with_stats (count_segment 0 10 fresh_stats)
       (example_translator 500 RUNNING []))
  = Raise ZeroDivisionError.
Proof. reflexivity. Qed.

(** A cache of two entries: [a] is read after [b] was stored, so storing [c]
    evicts [b]. *)
Example lru_evicts_the_key_not_read :
  ∃ c v,
    cache_run length_hash
      [Put (u "a") (u "en") (u "ja") (u "1");
       Put (u "bb") (u "en") (u "ja") (u "2");
       Get (u "a") (u "en") (u "ja");
       Put (u "ccc") (u "en") (u "ja") (u "3")]
      (TranslationCache_init 2) no_uses = Some (c, v) ∧
    access_order c =
      [_make_key length_hash (u "a") (u "en") (u "ja");
       _make_key length_hash (u "ccc") (u "en") (u "ja")] ∧
    cache c !! _make_key length_hash (u "bb") (u "en") (u "ja") = None.
Proof. eexists _, _. split; [reflexivity|]. split; reflexivity. Qed.

(** The same cache before [c] is stored: it is at capacity, [b] is its
    least recently used key, and the [set] of [c] evicts [b] and nothing
    else. *)
Lemma translation_cache_bounded_lru_witness :
  ∃ c v c',
    cache_run length_hash
      [Put (u "a") (u "en") (u "ja") (u "1");
       Put (u "bb") (u "en") (u "ja") (u "2");
       Get (u "a") (u "en") (u "ja")]
      (TranslationCache_init 2) no_uses = Some (c, v) ∧
    size (cache c) = 2%nat ∧
    least_recently_used c v (_make_key length_hash (u "bb") (u "en") (u "ja")) ∧
    cache_set length_hash (u "ccc") (u "en") (u "ja") (u "3") c = (Ret (), c') ∧
    cache c' !! _make_key length_hash (u "a") (u "en") (u "ja") = Some (u "1") ∧
    cache c' !! _make_key length_hash (u "bb") (u "en") (u "ja") = None ∧
    cache c' !! _make_key length_hash (u "ccc") (u "en") (u "ja") = Some (u "3") ∧
    size (cache c') = 2%nat.
Proof.
  destruct (translation_cache_bounded_lru length_hash 2 ltac:(lia))
    as [Hall _].
  destruct (Hall [Put (u "a") (u "en") (u "ja") (u "1");
                  Put (u "bb") (u "en") (u "ja") (u "2");
                  Get (u "a") (u "en") (u "ja")])
    as (c & v & Hrun & _ & _ & _ & _ & Hset & _).
  destruct (Hset (u "ccc") (u "en") (u "ja") (u "3"))
    as (c' & Hc' & _ & Hnew & _ & Hevict).
  exists c, v, c'.
  assert (cache c !! _make_key length_hash (u "bb") (u "en") (u "ja")
          = Some (u "2")) as Hbb.
  { vm_compute in Hrun. injection Hrun as <- <-. reflexivity. }
  assert (size (cache c) = 2%nat) as Hsize.
  { vm_compute in Hrun. injection Hrun as <- <-. reflexivity. }
  destruct Hevict as (victim & Hlru & Hcache & Hsz).
  { vm_compute in Hrun. injection Hrun as <- <-. reflexivity. }
  { rewrite Hsize. reflexivity. }
  assert (cache c !! _make_key length_hash (u "a") (u "en") (u "ja")
          = Some (u "1") ∧
          stamp v (_make_key length_hash (u "bb") (u "en") (u "ja"))
          < stamp v (_make_key length_hash (u "a") (u "en") (u "ja")))%nat
    as [Ha Hlt].
  { vm_compute in Hrun. injection Hrun as <- <-. split; [reflexivity|].
    vm_compute. lia. }
  assert (victim = _make_key length_hash (u "bb") (u "en") (u "ja")) as ->.
  { destruct Hlru as [[x Hv] Hleast].
    destruct (decide (victim = _make_key length_hash (u "bb") (u "en") (u "ja")))
      as [|Hne]; [done|].
    destruct (decide (victim = _make_key length_hash (u "a") (u "en") (u "ja")))
      as [->|Hne'].
    - specialize (Hleast _ (mk_is_Some _ _ Hbb) ltac:(done)). lia.
    - exfalso.
      assert (size (delete (_make_key length_hash (u "a") (u "en") (u "ja"))
                      (delete (_make_key length_hash (u "bb") (u "en") (u "ja"))
                         (cache c))) = 0%nat) as H0.
      { rewrite !map_size_delete_Some, Hsize;
          [done|by eexists|rewrite lookup_delete_ne by done; by eexists]. }
      apply map_size_empty_inv in H0.
      assert (delete (_make_key length_hash (u "a") (u "en") (u "ja"))
                (delete (_make_key length_hash (u "bb") (u "en") (u "ja"))
                   (cache c)) !! victim = Some x) as Hx
        by by rewrite !lookup_delete_ne.
      by rewrite H0, lookup_empty in Hx. }
  split; [exact Hrun|]. split; [exact Hsize|]. split; [exact Hlru|].
  split; [exact Hc'|].
  split; [|split; [|split; [|by rewrite Hsz]]]; rewrite Hcache.
  - rewrite lookup_insert_ne by (vm_compute; discriminate).
    rewrite lookup_delete_ne by (vm_compute; discriminate). exact Ha.
  - rewrite lookup_insert_ne by (vm_compute; discriminate).
    apply lookup_delete_eq.
  - apply lookup_insert_eq.
Defined.

Lemma cache_set_then_get_witness :
  ∃ c1 c2,
    cache_set length_hash (u "a") (u "en") (u "ja") (u "1")
      (TranslationCache_init 1) = (Ret (), c1) ∧
    cache_set length_hash (u "bb") (u "en") (u "ja") (u "2") c1 = (Ret (), c2) ∧
    cache_get length_hash (u "a") (u "en") (u "ja") c2 = (Ret None, c2).
Proof.
  destruct (cache_set_then_get length_hash 1 [] []
              (u "a") (u "en") (u "ja") (u "1")
              (u "a") (u "en") (u "ja") (u "1")
              (u "bb") (u "en") (u "ja") (u "2"))
    as (_ & c & v & c1 & c2 & c3 & Hrun & Hset1 & Hset2 & Hget1 & _);
    [lia|vm_compute; discriminate|].
  simpl in Hrun. injection Hrun as <- <-.
  exists c1, c2. split; [exact Hset1|]. split; [exact Hset2|exact Hget1].
Defined.

(** The claim as it is worded, for every cache: on a cache built with
    maximum size 0 the [set] raises [IndexError] on the empty access order
    and stores nothing, and the [get] that follows returns absent. *)
Lemma cache_set_then_get_zero_capacity :
  cache_set length_hash (u "a") (u "en") (u "ja") (u "1")
    (TranslationCache_init 0)
  = (Raise IndexError, TranslationCache_init 0) ∧
  cache_get length_hash (u "a") (u "en") (u "ja") (TranslationCache_init 0)
  = (Ret None, TranslationCache_init 0) ∧
  ¬ (∃ c1 c2,
       cache_set length_hash (u "a") (u "en") (u "ja") (u "1")
         (TranslationCache_init 0) = (Ret (), c1) ∧
       cache_get length_hash (u "a") (u "en") (u "ja") c1
       = (Ret (Some (u "1")), c2)).
Proof.
  split; [reflexivity|]. split; [reflexivity|].
  intros (c1 & c2 & Hset & _). discriminate Hset.
Qed.

(** ** The counters under a clock that advances *)

Lemma translate_text_n_time w text s t context tr c :
  (n_time c ≤ n_time (translate_text w text s t context tr c).2)%nat.
Proof.
  unfold translate_text. destruct (negb (truthy (strip text))); simpl; lia.
Qed.

Lemma stats_sane_count_segment p d s :
  (0 < p)%Q → stats_sane s → stats_sane (count_segment p d s).
Proof.
  intros Hp (Hseg & Htot & _). unfold stats_sane. simpl.
  split_and!; [lia|lra|intros _; lra].
Qed.

(** What the processing of a recognized text does to the counters: when it
    returns, a cache hit or miss and a segment were counted, the segment with
    the time between [start_time] and a later reading of the clock; when it
    raises, the counters are as they were. *)
Lemma process_transcription_stats w start text lt :
  ∃ r lt',
    process_transcription w start text lt = (r, lt') ∧
    match r with
    | Ret _ =>
        ∃ n s0,
          (n_time (calls lt) ≤ n)%nat ∧
          (s0 = count_cache_hit (stats lt) ∨ s0 = count_cache_miss (stats lt)) ∧
          stats lt' =
            count_segment (time_time w n - start) (segment_duration lt) s0
    | Raise _ => stats lt' = stats lt
    end.
Proof.
  unfold process_transcription, mbind, M_bind, mret, M_ret, gets, modify, now,
    on_cache, translate. simpl.
  destruct (cache_get (str_hash w) text _ _ _) as [[cached|e] c1]; simpl;
    [|by eexists _, _].
  destruct (truthy_opt cached); simpl.
  - eexists _, _. split; [done|]. simpl.
    exists (S (n_time (calls lt))), (count_cache_hit (stats lt)).
    split_and!; [lia|by left|].
    unfold notify. by destruct (transcription_callback lt).
  - pose proof (translate_text_n_time w text (source_language lt)
                  (target_language lt) None (translator lt) (calls lt)) as Hn.
    destruct (translate_text w text _ _ None _ _) as [[translation t] c].
    simpl in Hn |- *.
    destruct (truthy_opt translation); simpl.
    + destruct (cache_set (str_hash w) text _ _ _ c1) as [[[]|e] c2]; simpl;
        [|by eexists _, _].
      eexists _, _. split; [done|]. simpl.
      exists (S (n_time c)), (count_cache_miss (stats lt)).
      split_and!; [lia|by right|].
      unfold notify. by destruct (transcription_callback lt).
    + eexists _, _. split; [done|]. simpl.
      exists (S (n_time c)), (count_cache_miss (stats lt)).
      split_and!; [lia|by right|].
      unfold notify. by destruct (transcription_callback lt).
Qed.

Lemma stats_handle_error m lt :
  stats (_handle_error m lt) = count_error (stats lt).
Proof.
  unfold _handle_error, _update_state, notify. simpl.
  destruct (decide (state lt = ERROR)); simpl;
    repeat (case_match; simpl); done.
Qed.

Lemma stats_sane_fresh : stats_sane fresh_stats.
Proof. unfold stats_sane. simpl. split_and!; [lia|lra|lia]. Qed.

(** One turn of the worker keeps the counters sane. *)
Lemma worker_turn_stats_sane w lt :
  clock_advances w → stats_sane (stats lt) →
  stats_sane (stats (worker_turn w lt).2).
Proof.
  intros Hclock Hsane. unfold worker_turn.
  destruct (audio_queue lt) as [|[audio|] rest] eqn:Hq.
  - unfold worker_body, mbind, M_bind, mret, M_ret, gets. by rewrite Hq.
  - rewrite (worker_body_segment w lt audio rest Hq). simpl.
    destruct (whisper w _ _ audio _) as [raw|e]; simpl; [|done].
    destruct (truthy (strip raw)); simpl; [|done].
    set (lt1 := with_calls _ _).
    destruct (process_transcription_stats w
                (time_time w (n_time (calls lt))) (strip raw) lt1)
      as ([[]|e] & lt' & -> & Hstats); simpl.
    + destruct Hstats as (n & s0 & Hn & Hs0 & ->). simpl in Hn.
      apply stats_sane_count_segment.
      * pose proof (Hclock (n_time (calls lt)) n ltac:(lia)). lra.
      * by destruct Hs0 as [-> | ->].
    + rewrite stats_handle_error, Hstats. done.
  - unfold worker_body, mbind, M_bind, mret, M_ret, gets, modify.
    by rewrite Hq.
Qed.

(** However long the worker runs on counters that start sane, [get_stats]
    returns a report afterwards. *)
Lemma get_stats_returns_after_worker w turns lt :
  clock_advances w → stats_sane (stats lt) →
  stats_sane (stats (_audio_processing_worker w turns lt).2) ∧
  ∃ r, get_stats (_audio_processing_worker w turns lt).2 = Ret r.
Proof.
  intros Hclock Hsane.
  assert (stats_sane (stats (_audio_processing_worker w turns lt).2)) as H.
  { revert lt Hsane. induction turns as [|n IH]; intros lt Hsane; simpl.
    - by destruct (worker_guard lt).
    - destruct (worker_guard lt); [|done].
      pose proof (worker_turn_stats_sane w lt Hclock Hsane) as Hturn.
      destruct (worker_turn w lt) as [[] lt1]; simpl in *; [by apply IH|done]. }
  split; [done|].
  destruct H as (_ & _ & Hpos).
  destruct (get_stats_report (_audio_processing_worker w turns lt).2)
    as (r & -> & _); [|by exists r].
  intros Hseg. specialize (Hpos Hseg). lra.
Qed.
